(** * The Appleseed text shell (shell.c): line editor, tokenizer, dispatcher

    A shallow embedding of [register_command], [shell_instance_thread],
    [prompt], [historic_prompt], [clear_prompt], [put_prompt], [parse_input]
    and [shell_builtins], and the properties of the line editor, of the
    history ring, of the tokenizer and of the command dispatcher.

    Conventions of the embedding.
    - A [char] is a [nat] below 256; a C array is a [list]; reading past the
      end of a list yields NUL and writing past it does nothing (the theorems
      that depend on an access being in range say so).
    - A pointer into [input_buffer] is the offset it points at; a pointer to
      a command descriptor is an address in the store [cmds]; a NULL pointer
      is [None].
    - The integer fields keep their C names. [cursor_index], [input_index],
      [nargs] and the loop counter [i] are modelled by [nat], which is exact
      as long as SHELL_CMD_BUFFER_SIZE is at most 256 ([i] is an
      [unsigned char]); [history_save_index] wraps at 256 as the
      [unsigned char] it is; [history_index] is a signed [Z], exact for a
      ring of at most 128 slots (it is an [int8_t]).
    - The constants of shell.h, which is not among the sources, are the
      fields of the class [ShellConfig]; the strings it defines are written
      symbolically as output events. [shell_cmd_init] and the command
      handlers are the fields of the class [ShellEnv].
    - The world outside the session (open descriptors, files, the output,
      the working directory, the store of descriptors) is a record that is
      passed along; the handler calls the shell makes are logged in it.
    - An operation that C leaves undefined (a NULL given to [strncmp],
      [strlen] or [ftell], a call through a NULL function pointer) ends the
      run in [Stuck], which records the state in which it was attempted; a
      walk through a registry whose links form a cycle is [Diverges]. *)

From stdpp Require Import base option list gmap.
From Stdlib Require String Ascii.
Import String.StringSyntax.
Delimit Scope string_scope with string.

Local Open Scope nat_scope.

(** ** C strings *)

(** A [char], as its code. *)
Abbreviation byte := nat (only parsing).

(** [buf[i]]. *)
Definition get (buf : list byte) (i : nat) : byte := default 0 (buf !! i).

(** The NUL-terminated string that starts a list of bytes. *)
Fixpoint cstr (l : list byte) : list byte :=
  match l with
  | [] => []
  | c :: l' => if c =? 0 then [] else c :: cstr l'
  end.

(** The string a pointer [p] into [buf] points at. *)
Definition cstr_at (buf : list byte) (p : nat) : list byte := cstr (drop p buf).

Definition strlen (l : list byte) : nat := length (cstr l).

(** [strncpy(dst, src, n)]: the first [n] bytes of [dst] become the string of
    [src], cut at [n] bytes or padded with NUL up to [n] bytes. *)
Definition strncpy (dst src : list byte) (n : nat) : list byte :=
  take n (cstr src ++ replicate n 0) ++ drop n dst.

(** [strncmp(s1, s2, n)]. *)
Fixpoint strncmp (s1 s2 : list byte) (n : nat) : Z :=
  match n with
  | 0 => 0%Z
  | S n' =>
      let c1 := get s1 0 in
      let c2 := get s2 0 in
      if c1 =? c2
      then if c1 =? 0 then 0%Z else strncmp (tail s1) (tail s2) n'
      else (Z.of_nat c1 - Z.of_nat c2)%Z
  end.

(** [while(cond( *iter)) iter++], as the number of steps the pointer makes
    through the bytes in front of it. *)
Fixpoint span (cond : byte → bool) (l : list byte) : nat :=
  match l with
  | [] => 0
  | c :: l' => if cond c then S (span cond l') else 0
  end.

(** Bytes of a Rocq string, to write lines and names. *)
Definition bytes (s : String.string) : list byte :=
  map Ascii.nat_of_ascii (String.list_ascii_of_string s).
Arguments bytes s%_string.

Definition SPACE : byte := 32.
Definition NEWLINE : byte := 10.
Definition ESC : byte := 0x1B.
Definition BACKSPACE : byte := 0x7F.
Definition BACKTICK : byte := 96.
Definition QUOTE : byte := 39.
Definition DQUOTE : byte := 34.

(** ** Constants of shell.h *)

Class ShellConfig := {
  SHELL_CMD_BUFFER_SIZE : nat;
  SHELL_HISTORY_LENGTH : nat;
  SHELL_MAX_ARGS : nat;
  SHELL_CMD_KILL : Z;
  SHELL_CMD_CHDIR : Z;
  SHELL_CMD_PRINT_CMDS : Z;
  SHELL_CMD_PRINT_USAGE : Z
}.

(** ** Tokenizer (parse_input, the loop that splits the line) *)

Section Tokenizer.
Context `{ShellConfig}.

Definition is_quote (c : byte) : bool :=
  (c =? BACKTICK) || (c =? QUOTE) || (c =? DQUOTE).

(** [while( *iter && ( *iter == ' ')) iter++;] *)
Definition skip_spaces (buf : list byte) (iter : nat) : nat :=
  iter + span (λ c, negb (c =? 0) && (c =? SPACE)) (drop iter buf).

(** [while( *iter && ( *iter != delimiter)) iter++;] *)
Definition find_delimiter (buf : list byte) (iter : nat) (delimiter : byte) : nat :=
  iter + span (λ c, negb (c =? 0) && negb (c =? delimiter)) (drop iter buf).

(** The state of the loop: the buffer, which is cut in place, [iter],
    [cmd->args] and [cmd->nargs]. *)
Record tok_state := TokState {
  tk_buf : list byte;
  tk_args : list (option nat);
  tk_nargs : nat
}.

(** [while( *iter) { ... }]: one unfolding per round of the loop. Every round
    that does not leave the loop moves [iter] forward, so [fuel] rounds are
    enough when the buffer has [fuel] bytes after [iter]
    (see [tokenize_loop_fuel]). *)
Fixpoint tokenize_loop (fuel : nat) (buf : list byte) (iter : nat)
    (args : list (option nat)) (nargs : nat) : tok_state :=
  match fuel with
  | 0 => TokState buf args nargs
  | S fuel' =>
      if get buf iter =? 0 then TokState buf args nargs
      else
        let iter := skip_spaces buf iter in
        if get buf iter =? 0 then TokState buf args nargs
        else
          let quoted := is_quote (get buf iter) in
          let delimiter := if quoted then get buf iter else 0 in
          let iter := if quoted then S iter else iter in
          let args := <[nargs := Some iter]> args in
          let nargs := S nargs in
          if SHELL_MAX_ARGS <=? nargs then TokState buf args nargs
          else
            let delimiter := if delimiter =? 0 then SPACE else delimiter in
            let iter := find_delimiter buf iter delimiter in
            if get buf iter =? 0
            then tokenize_loop fuel' buf iter args nargs
            else tokenize_loop fuel' (<[iter := 0]> buf) (S iter) args nargs
  end.

(** [memset(cmd->args, 0, sizeof(cmd->args)); iter = sh->input_buffer;
    cmd->nargs = 0; while( *iter) ...] *)
Definition tokenize (buf : list byte) : tok_state :=
  tokenize_loop (length buf) buf 0 (replicate SHELL_MAX_ARGS None) 0.

(** What the argument vector [args] shows to a reader: the string behind
    each pointer, NULL for an unused slot. *)
Definition arg_strings (buf : list byte) (args : list (option nat))
    : list (option (list byte)) :=
  (λ a : option nat, cstr_at buf <$> a) <$> args.

End Tokenizer.

(** ** The tokenizer as the specification words it *)

Fixpoint drop_spaces (line : list byte) : list byte :=
  match line with
  | [] => []
  | c :: rest => if c =? SPACE then drop_spaces rest else line
  end.

Fixpoint take_until (d : byte) (line : list byte) : list byte :=
  match line with
  | [] => []
  | c :: rest => if c =? d then [] else c :: take_until d rest
  end.

(** The tokens of a line as section 4.2 of the specification words them:
    skip the spaces; a token that opens with a backtick, a single or a double
    quote runs, without that quote, to the same quote or to the end of the
    line; any other token runs to the next space or to the end of the line.
    A line of [fuel] bytes has at most [fuel] tokens. *)
Fixpoint spec_tokens_from (fuel : nat) (line : list byte) : list (list byte) :=
  match fuel with
  | 0 => []
  | S fuel' =>
      match drop_spaces line with
      | [] => []
      | c :: rest =>
          if is_quote c
          then let tok := take_until c rest in
               tok :: spec_tokens_from fuel' (drop (S (length tok)) rest)
          else let tok := take_until SPACE (c :: rest) in
               tok :: spec_tokens_from fuel' (drop (S (length tok)) (c :: rest))
      end
  end.

Definition spec_tokens (line : list byte) : list (list byte) :=
  spec_tokens_from (length line) line.

(** ** The command registry and the session *)

(** Addresses of descriptors and of functions. *)
Abbreviation addr := nat (only parsing).
Abbreviation fnptr := nat (only parsing).

(** [shell_cmd_t]: [name] and [usage] are C strings, [cmdfunc] is a function
    pointer, [next] links the registry. *)
Record shell_cmd_t := ShellCmd {
  name : option (list byte);
  usage : option (list byte);
  cmdfunc : option fnptr;
  next : option addr
}.

(** The part of [shellserver_t] the shell reads: the head of the registry. *)
Record shellserver_t := ShellServer { server_head_cmd : option addr }.

Record current_command_t := CurrentCommand {
  cmd : option addr;
  args : list (option nat);
  nargs : nat
}.

Record stat_t := Stat { st_size : nat; st_mode : Z }.

Definition S_IFREG : Z := 0x8000.

Record shell_instance_t := ShellInstance {
  input_buffer : list byte;
  history : list (list byte);
  cursor_index : nat;
  input_index : nat;
  history_index : Z;
  history_save_index : nat;
  head_cmd : option addr;
  exitflag : bool;
  readfs : option Z;
  readf : Z;
  savereadf : Z;
  writef : Z;
  sstat : stat_t;
  current_command : current_command_t
}.

Definition set_input_buffer (sh : shell_instance_t) (b : list byte) :=
  ShellInstance b (history sh) (cursor_index sh) (input_index sh) (history_index sh)
    (history_save_index sh) (head_cmd sh) (exitflag sh) (readfs sh) (readf sh)
    (savereadf sh) (writef sh) (sstat sh) (current_command sh).

Definition set_history (sh : shell_instance_t) (h : list (list byte)) (save : nat) :=
  ShellInstance (input_buffer sh) h (cursor_index sh) (input_index sh) (history_index sh)
    save (head_cmd sh) (exitflag sh) (readfs sh) (readf sh)
    (savereadf sh) (writef sh) (sstat sh) (current_command sh).

Definition set_indices (sh : shell_instance_t) (cursor input : nat) :=
  ShellInstance (input_buffer sh) (history sh) cursor input (history_index sh)
    (history_save_index sh) (head_cmd sh) (exitflag sh) (readfs sh) (readf sh)
    (savereadf sh) (writef sh) (sstat sh) (current_command sh).

Definition set_history_index (sh : shell_instance_t) (hi : Z) :=
  ShellInstance (input_buffer sh) (history sh) (cursor_index sh) (input_index sh) hi
    (history_save_index sh) (head_cmd sh) (exitflag sh) (readfs sh) (readf sh)
    (savereadf sh) (writef sh) (sstat sh) (current_command sh).

Definition set_exitflag (sh : shell_instance_t) (e : bool) :=
  ShellInstance (input_buffer sh) (history sh) (cursor_index sh) (input_index sh)
    (history_index sh) (history_save_index sh) (head_cmd sh) e (readfs sh) (readf sh)
    (savereadf sh) (writef sh) (sstat sh) (current_command sh).

(** The four fields of the redirection: [readfs], [readf], [savereadf], [sstat]. *)
Definition set_redirect (sh : shell_instance_t) (fs : option Z) (rf srf : Z) (st : stat_t) :=
  ShellInstance (input_buffer sh) (history sh) (cursor_index sh) (input_index sh)
    (history_index sh) (history_save_index sh) (head_cmd sh) (exitflag sh) fs rf
    srf (writef sh) st (current_command sh).

Definition set_current_command (sh : shell_instance_t) (c : current_command_t) :=
  ShellInstance (input_buffer sh) (history sh) (cursor_index sh) (input_index sh)
    (history_index sh) (history_save_index sh) (head_cmd sh) (exitflag sh) (readfs sh)
    (readf sh) (savereadf sh) (writef sh) (sstat sh) c.

(** ** The world outside the session *)

(** What the shell writes to [writef]. The strings of shell.h are kept
    symbolic; [W_bytes] is a write of bytes taken from memory. *)
Inductive out_event :=
| W_bytes (l : list byte)
| W_CR
| W_LF
| W_SHELL_LEFTARROW
| W_SHELL_RIGHTARROW
| W_SHELL_NEWLINE
| W_SHELL_NO_SUCH_COMMAND
| W_SHELL_HELP_STR
| W_SHELL_DRIVE
| W_SHELL_PROMPT
| W_SHELL_ROOT_PROMPT
| W_cmd_usage (c : addr).

(** An open descriptor: the bytes it delivers and the read position. *)
Record stream := Stream { s_data : list byte; s_pos : nat }.

(** A file of the file system: what [stat] reports and what [open] gives,
    [None] when it cannot be opened for reading. *)
Record file := File { f_mode : Z; f_size : nat; f_open : option (list byte) }.

(** A call of a command handler: the function, [fdes], [args], [nargs]. *)
Record call := Call {
  c_func : fnptr;
  c_fdes : Z;
  c_args : list (option (list byte));
  c_nargs : nat
}.

Record world := World {
  cmds : gmap addr shell_cmd_t;      (* the descriptors in memory *)
  fds : gmap Z stream;               (* the open descriptors *)
  files : gmap (list byte) file;     (* the file system, by path *)
  out : list out_event;              (* the writes to [writef], oldest first *)
  shell_cwd : list byte;             (* the static [shell_cwd] *)
  cwd : list byte;                   (* the working directory of the process *)
  calls : list call                  (* the handler calls made, oldest first *)
}.

Definition set_fds (w : world) (f : gmap Z stream) :=
  World (cmds w) f (files w) (out w) (shell_cwd w) (cwd w) (calls w).

Definition write (w : world) (es : list out_event) :=
  World (cmds w) (fds w) (files w) (out w ++ es) (shell_cwd w) (cwd w) (calls w).

Definition set_shell_cwd (w : world) (d : list byte) :=
  World (cmds w) (fds w) (files w) (out w) d (cwd w) (calls w).

Definition set_calls (w : world) (cs : list call) :=
  World (cmds w) (fds w) (files w) (out w) (shell_cwd w) (cwd w) cs.


(** The code of the repository the shell calls and that is not among the
    sources: [shell_cmd_init] (shell_command.c), and the command handlers,
    which may do anything to the world and return a status code. *)
Class ShellEnv := {
  shell_cmd_init :
    shell_cmd_t → option fnptr → option (list byte) → option (list byte) → shell_cmd_t;
  run_cmdfunc :
    fnptr → Z → list (option (list byte)) → nat → world → Z * world
}.

(** ** Outcomes *)

Inductive fault :=
| NULL_strncmp    (* strncmp with a NULL argument *)
| NULL_strlen     (* strlen(NULL) *)
| NULL_ftell      (* ftell(NULL) *)
| NULL_call       (* call through a NULL function pointer *)
| Bad_pointer.    (* a descriptor pointer that points at no descriptor *)

(** [Done a]: the code returns [a]. [Stuck f sh w]: in the state [sh], [w]
    the code attempts the operation [f], which C does not define.
    [Diverges]: the code loops for ever (a registry whose links form a
    cycle). *)
Inductive outcome (A : Type) :=
| Done (a : A)
| Stuck (why : fault) (sh : shell_instance_t) (w : world)
| Diverges.
Arguments Done {A} a.
Arguments Stuck {A} why sh w.
Arguments Diverges {A}.

#[global] Instance outcome_bind : MBind outcome := λ A B k o,
  match o with
  | Done a => k a
  | Stuck f sh w => Stuck f sh w
  | Diverges => Diverges
  end.

(** ** register_command *)

Section Registry.
Context `{ShellEnv}.


End Registry.

(** ** parse_input *)

Section ParseInput.
Context `{ShellConfig}.

(** The copy of the line into the history ring:
    [if(sh->input_buffer[0] != 0) { strncpy(...); sh->history_save_index++;
    if(sh->history_save_index >= SHELL_HISTORY_LENGTH) sh->history_save_index = 0; }].
    [history_save_index] is an [unsigned char]. *)
Definition history_save (sh : shell_instance_t) : shell_instance_t :=
  if get (input_buffer sh) 0 =? 0 then sh
  else
    let k := history_save_index sh in
    let slot := strncpy (default [] (history sh !! k)) (input_buffer sh)
                  (SHELL_CMD_BUFFER_SIZE - 1) in
    let k' := (k + 1) mod 256 in
    set_history sh (<[k := slot]> (history sh))
      (if SHELL_HISTORY_LENGTH <=? k' then 0 else k').

(** [while(head && head->name) { if(!strncmp(cmd->args[0], head->name, n))
    break; head = head->next; }]: the value of [head] after the loop. A walk
    through more descriptors than memory holds is in a cycle. *)
Inductive walk :=
| Walk_end (head : option addr)
| Walk_fault (f : fault)
| Walk_diverges.

Fixpoint match_command (fuel : nat) (mem : gmap addr shell_cmd_t)
    (head : option addr) (arg0 : option (list byte)) (n : nat) : walk :=
  match fuel with
  | 0 => Walk_diverges
  | S fuel' =>
      match head with
      | None => Walk_end None
      | Some a =>
          match mem !! a with
          | None => Walk_fault Bad_pointer
          | Some d =>
              match name d with
              | None => Walk_end head
              | Some nm =>
                  match arg0 with
                  | None => Walk_fault NULL_strncmp
                  | Some s =>
                      if (strncmp s nm n =? 0)%Z then Walk_end head
                      else match_command fuel' mem (next d) arg0 n
                  end
              end
          end
      end
  end.

(** [head && head->name] *)
Definition has_name (mem : gmap addr shell_cmd_t) (head : option addr) : bool :=
  match head with
  | None => false
  | Some a =>
      match mem !! a with
      | Some d => bool_decide (is_Some (name d))
      | None => false
      end
  end.

(** The bytes a pointer of [args] points at, as [strncmp] reads them. *)
Definition arg_ptr (buf : list byte) (a : option nat) : option (list byte) :=
  (λ p, drop p buf) <$> a.

(** [parse_input(sh, &sh->current_command)]: [cmd] is the session's own
    [current_command]. *)
Definition parse_input (sh : shell_instance_t) (w : world)
    : outcome (shell_instance_t * world) :=
  let cc := current_command sh in
  let sh := set_current_command sh (CurrentCommand None (args cc) (nargs cc)) in
  match head_cmd sh with
  | None => Done (sh, w)
  | Some _ =>
      let sh := set_input_buffer sh
                  (<[SHELL_CMD_BUFFER_SIZE - 1 := 0]> (input_buffer sh)) in
      let sh := history_save sh in
      let t := tokenize (input_buffer sh) in
      let sh := set_input_buffer sh (tk_buf t) in
      let sh := set_current_command sh (CurrentCommand None (tk_args t) (tk_nargs t)) in
      match match_command (S (size (cmds w))) (cmds w) (head_cmd sh)
              (arg_ptr (tk_buf t) (mjoin (tk_args t !! 0)))
              (SHELL_CMD_BUFFER_SIZE - 1) with
      | Walk_diverges => Diverges
      | Walk_fault f => Stuck f sh w
      | Walk_end head =>
          if has_name (cmds w) head
          then Done (set_current_command sh
                       (CurrentCommand head (tk_args t) (tk_nargs t - 1)),
                     write w [W_SHELL_NEWLINE])
          else Done (sh, w)
      end
  end.

End ParseInput.

(** ** The line editor and the session loop *)

Section Prompt.
Context `{ShellConfig} `{ShellEnv}.

(** [read(fd, &data, 1)]: the byte read, [None] when the result is [<= 0]
    (no such descriptor, or nothing left to read). *)
Definition read (fd : Z) (w : world) : option (byte * world) :=
  match fds w !! fd with
  | None => None
  | Some s =>
      match s_data s !! s_pos s with
      | None => None
      | Some c => Some (c, set_fds w (<[fd := Stream (s_data s) (S (s_pos s))]> (fds w)))
      end
  end.

(** [data = 0; read(sh->readf, &data, 1);] *)
Definition read_data (fd : Z) (w : world) : byte * world :=
  match read fd w with
  | Some r => r
  | None => (0, w)
  end.

(** [ftell] of the stream opened on descriptor [fd]; [None] stands for -1. *)
Definition ftell (fd : Z) (w : world) : option nat :=
  s_pos <$> (fds w !! fd).

Definition fclose (fd : Z) (w : world) : world :=
  set_fds w (delete fd (fds w)).

(** [stat(path, &st)]: [Some] of what it stores when it returns 0. *)
Definition stat (path : list byte) (w : world) : option stat_t :=
  (λ f, Stat (f_size f) (f_mode f)) <$> (files w !! path).

(** The lowest descriptor that is not in use. *)
Definition free_fd (w : world) : Z :=
  Z.of_nat (default 0 (fst <$> list_find (λ n, fds w !! Z.of_nat n = None)
                                  (seq 0 (S (size (fds w)))))).

(** [open(path, O_RDONLY)]: the new descriptor, [-1] on failure. *)
Definition open (path : list byte) (w : world) : Z * world :=
  match files w !! path with
  | None => ((-1)%Z, w)
  | Some f =>
      match f_open f with
      | None => ((-1)%Z, w)
      | Some content =>
          let fd := free_fd w in
          (fd, set_fds w (<[fd := Stream content 0]> (fds w)))
      end
  end.

(** [put_prompt(sh, argstr, newline)] *)
Definition put_prompt (w : world) (argstr : option (list byte)) (newline : bool) : world :=
  let len := strlen (shell_cwd w) in
  let w := write w [W_CR] in
  let w := if newline then write w [W_LF] else w in
  let w := if 0 <? len
           then write w [W_SHELL_DRIVE; W_bytes (cstr (shell_cwd w)); W_SHELL_PROMPT]
           else write w [W_SHELL_ROOT_PROMPT] in
  match argstr with
  | Some s => write w [W_bytes (cstr s)]
  | None => w
  end.

(** [while(buf[input_index]) { buf[input_index] = ' '; input_index++; }] *)
Fixpoint blank (buf : list byte) : list byte :=
  match buf with
  | [] => []
  | c :: rest => if c =? 0 then buf else SPACE :: blank rest
  end.

(** [clear_prompt(sh)] *)
Definition clear_prompt (sh : shell_instance_t) (w : world) : shell_instance_t * world :=
  let sh := set_indices sh 0 0 in
  let sh := set_input_buffer sh (blank (input_buffer sh)) in
  (sh, put_prompt w (Some (input_buffer sh)) false).

(** [historic_prompt(sh)] *)
Definition historic_prompt (sh : shell_instance_t) (w : world) : shell_instance_t * world :=
  if ((0 <=? history_index sh) && (history_index sh <? Z.of_nat SHELL_HISTORY_LENGTH))%Z
  then
    let entry := default [] (history sh !! Z.to_nat (history_index sh)) in
    if negb (get entry 0 =? 0)
    then
      let '(sh, w) := clear_prompt sh w in
      let sh := set_input_buffer sh
                  (strncpy (input_buffer sh) entry (SHELL_CMD_BUFFER_SIZE - 1)) in
      let len := strlen (input_buffer sh) in
      let sh := set_indices sh len len in
      (sh, put_prompt w (Some (input_buffer sh)) false)
    else (sh, w)
  else
    let '(sh, w) := clear_prompt sh w in
    let sh := set_indices sh 0 0 in
    let sh := set_input_buffer sh (<[input_index sh := 0]> (input_buffer sh)) in
    (sh, put_prompt w None false).

(** [for(i = from; i < to; i++) buf[i] = buf[i+1];] with [n = to - from]. *)
Fixpoint shift_left (n : nat) (buf : list byte) (i : nat) : list byte :=
  match n with
  | 0 => buf
  | S n' => shift_left n' (<[i := get buf (S i)]> buf) (S i)
  end.

(** [for(i = from; i > to; i--) buf[i] = buf[i-1];] with [n = from - to]. *)
Fixpoint shift_right (n : nat) (buf : list byte) (i : nat) : list byte :=
  match n with
  | 0 => buf
  | S n' => shift_right n' (<[i := get buf (i - 1)]> buf) (i - 1)
  end.

(** What DELETE and BACKSPACE do once the indices are moved: close the gap
    at the cursor, redraw the line, put the cursor back. *)
Definition wipe_character (sh : shell_instance_t) (w : world) : shell_instance_t * world :=
  let buf := shift_left (input_index sh - cursor_index sh) (input_buffer sh)
               (cursor_index sh) in
  let buf := <[input_index sh := SPACE]> buf in
  let buf := <[S (input_index sh) := 0]> buf in
  let w := put_prompt w (Some buf) false in
  let buf := <[input_index sh := 0]> buf in
  let w := put_prompt w (Some buf) false in
  let w := write w (replicate (input_index sh - cursor_index sh) W_SHELL_LEFTARROW) in
  (set_input_buffer sh buf, w).

(** ESC [ 3 ~ *)
Definition delete_key (sh : shell_instance_t) (w : world) : shell_instance_t * world :=
  if cursor_index sh <? input_index sh
  then wipe_character (set_indices sh (cursor_index sh) (input_index sh - 1)) w
  else (sh, w).

(** 0x7F *)
Definition backspace_key (sh : shell_instance_t) (w : world) : shell_instance_t * world :=
  if 0 <? cursor_index sh
  then wipe_character (set_indices sh (cursor_index sh - 1) (input_index sh - 1)) w
  else (sh, w).

(** The branch of all other bytes. *)
Definition insert_key (sh : shell_instance_t) (w : world) (data : byte)
    : shell_instance_t * world :=
  if SPACE <=? data
  then
    let sh :=
      if input_index sh <? SHELL_CMD_BUFFER_SIZE - 1
      then
        let buf := shift_right (input_index sh - cursor_index sh) (input_buffer sh)
                     (input_index sh) in
        let buf := <[cursor_index sh := data]> buf in
        set_indices (set_input_buffer sh buf) (S (cursor_index sh)) (S (input_index sh))
      else
        set_input_buffer (set_indices sh 1 1) (<[0 := data]> (input_buffer sh)) in
    let sh := set_input_buffer sh (<[input_index sh := 0]> (input_buffer sh)) in
    let w := if input_index sh =? 0 then put_prompt w None true else w in
    let w := write w [W_bytes (cstr_at (input_buffer sh) (cursor_index sh - 1))] in
    let w := write w (replicate (input_index sh - cursor_index sh) W_SHELL_LEFTARROW) in
    (sh, w)
  else (sh, w).

(** The escape sequences: what follows a byte 0x1B. *)
Definition escape_key (sh : shell_instance_t) (w : world) : shell_instance_t * world :=
  let '(data, w) := read_data (readf sh) w in
  if data =? 0x5B then
    let '(data, w) := read_data (readf sh) w in
    if data =? 0x33 then
      let '(data, w) := read_data (readf sh) w in
      if data =? 0x7E then delete_key sh w else (sh, w)
    else if data =? 0x41 then
      let hi := (history_index sh - 1)%Z in
      let hi := if (hi <? 0)%Z then (Z.of_nat SHELL_HISTORY_LENGTH - 1)%Z else hi in
      historic_prompt (set_history_index sh hi) w
    else if data =? 0x42 then
      historic_prompt (set_history_index sh (-1)) w
    else if data =? 0x44 then
      if 0 <? cursor_index sh
      then (set_indices sh (cursor_index sh - 1) (input_index sh),
            write w [W_SHELL_LEFTARROW])
      else (sh, w)
    else if data =? 0x43 then
      if cursor_index sh <? input_index sh
      then (set_indices sh (S (cursor_index sh)) (input_index sh),
            write w [W_SHELL_RIGHTARROW])
      else (sh, w)
    else (sh, w)
  else if data =? 0x4F then
    let '(data, w) := read_data (readf sh) w in
    if data =? 0x48 then
      (set_indices sh 0 (input_index sh),
       write w (replicate (cursor_index sh) W_SHELL_LEFTARROW))
    else if data =? 0x46 then
      (set_indices sh (Nat.max (cursor_index sh) (input_index sh)) (input_index sh),
       write w (replicate (input_index sh - cursor_index sh) W_SHELL_RIGHTARROW))
    else (sh, w)
  else (sh, w).

(** Modelled from the spec: [shell_cmd_exec], which is defined in
    shell_command.c, not among the sources. Sections 2 and 6: the dispatcher
    invokes the handler of the command with the output sink, the argument
    slices and the argument count, and the handler yields a status code. The
    call is added to [calls]. The specification is silent on a descriptor
    without a handler; the model stops there. *)
Definition shell_cmd_exec (sh : shell_instance_t) (w : world) (c : addr) (fdes : Z)
    (args_ : list (option (list byte))) (nargs_ : nat) : outcome (Z * world) :=
  match cmds w !! c with
  | None => Stuck Bad_pointer sh w
  | Some d =>
      match cmdfunc d with
      | None => Stuck NULL_call sh w
      | Some f =>
          let '(code, w') := run_cmdfunc f fdes args_ nargs_ w in
          Done (code, set_calls w' (calls w ++ [Call f fdes args_ nargs_]))
      end
  end.

(** [while(head) { write(SHELL_NEWLINE); write(head->name, strlen(head->name));
    head = head->next; }] of [shell_builtins]. *)
Fixpoint print_commands (fuel : nat) (sh : shell_instance_t) (w : world)
    (head : option addr) : outcome world :=
  match fuel with
  | 0 => Diverges
  | S fuel' =>
      match head with
      | None => Done w
      | Some a =>
          match cmds w !! a with
          | None => Stuck Bad_pointer sh w
          | Some d =>
              match name d with
              | None => Stuck NULL_strlen sh (write w [W_SHELL_NEWLINE])
              | Some nm =>
                  print_commands fuel' sh (write w [W_SHELL_NEWLINE; W_bytes (cstr nm)])
                    (next d)
              end
          end
      end
  end.

(** [shell_builtins(sh, code, cmd)] *)
Definition shell_builtins (sh : shell_instance_t) (w : world) (code : Z) (c : addr)
    : outcome (shell_instance_t * world) :=
  if (code =? SHELL_CMD_KILL)%Z then Done (set_exitflag sh true, w)
  else if (code =? SHELL_CMD_CHDIR)%Z then Done (sh, set_shell_cwd w (cwd w))
  else if (code =? SHELL_CMD_PRINT_CMDS)%Z then
    w ← print_commands (S (size (cmds w))) sh (write w [W_SHELL_HELP_STR]) (head_cmd sh);
    Done (sh, w)
  else if (code =? SHELL_CMD_PRINT_USAGE)%Z then Done (sh, write w [W_cmd_usage c])
  else Done (sh, w).

(** The input file is opened: [sh->savereadf = sh->readf;
    sh->readf = open(sh->input_buffer, O_RDONLY); if(sh->readf == -1) ... else
    sh->readfs = fdopen(sh->readf, "r");] *)
Definition redirect (sh : shell_instance_t) (w : world) : shell_instance_t * world :=
  let save := readf sh in
  let '(fd, w) := open (cstr (input_buffer sh)) w in
  if (fd =? -1)%Z
  then (set_redirect sh (readfs sh) save save (Stat 0 0), w)
  else (set_redirect sh (Some fd) fd save (sstat sh), w).

(** The branch of the byte '\n'. *)
Definition newline_key (sh : shell_instance_t) (w : world)
    : outcome (shell_instance_t * world) :=
  let sh := set_input_buffer sh (<[input_index sh := 0]> (input_buffer sh)) in
  '(sh, w) ← parse_input sh w;
  let cc := current_command sh in
  '(sh, w) ←
    match cmd cc with
    | Some c =>
        '(code, w) ← shell_cmd_exec sh w c (writef sh)
                       (drop 1 (arg_strings (input_buffer sh) (args cc))) (nargs cc);
        shell_builtins sh w code c
    | None =>
        match (if st_size (sstat sh) =? 0 then stat (cstr (input_buffer sh)) w else None) with
        | Some st =>
            let sh := set_redirect sh (readfs sh) (readf sh) (savereadf sh) st in
            if (st_mode st =? S_IFREG)%Z && negb (st_size st =? 0)
            then Done (redirect sh w)
            else Done (sh, w)
        | None =>
            match mjoin (args cc !! 0) with
            | Some p =>
                Done (sh, write w [W_SHELL_NO_SUCH_COMMAND;
                                   W_bytes (cstr_at (input_buffer sh) p)])
            | None => Done (sh, w)
            end
        end
    end;
  Done (set_indices sh 0 0, put_prompt w None true).

(** The test made on every byte while [sh->sstat.st_size] is not 0: is the
    input file at its end? Returns the session, the world and [inject]. *)
Definition end_of_file (sh : shell_instance_t) (w : world) (data : byte)
    : outcome (shell_instance_t * world * byte) :=
  if st_size (sstat sh) =? 0 then Done (sh, w, 0)
  else
    match readfs sh with
    | None => Stuck NULL_ftell sh w
    | Some f =>
        if bool_decide (ftell f w = Some (st_size (sstat sh)))
        then Done (set_redirect sh None (savereadf sh) (savereadf sh) (Stat 0 0),
                   fclose f w,
                   if data =? NEWLINE then 0 else NEWLINE)
        else Done (sh, w, 0)
    end.

(** What the loop does with the byte [data]. *)
Definition key (sh : shell_instance_t) (w : world) (data : byte)
    : outcome (shell_instance_t * world) :=
  if data =? ESC then Done (escape_key sh w)
  else if data =? NEWLINE then newline_key sh w
  else if data =? BACKSPACE then Done (backspace_key sh w)
  else Done (insert_key sh w data).

(** One round of [while(!sh->exitflag)], entered with the value of the
    local [inject]. *)
Definition prompt_step (sh : shell_instance_t) (w : world) (inject : byte)
    : outcome (shell_instance_t * world * byte) :=
  match (if inject =? 0 then read (readf sh) w else Some (inject, w)) with
  | None => Done (set_exitflag sh true, w, inject)
  | Some (data, w) =>
      '(sh, w, inject) ← end_of_file sh w data;
      '(sh, w) ← key sh w data;
      Done (sh, w, inject)
  end.

(** [prompt(sh)], followed for at most [n] rounds of its loop. *)
Fixpoint prompt_rounds (n : nat) (sh : shell_instance_t) (w : world) (inject : byte)
    : outcome (shell_instance_t * world * byte) :=
  match n with
  | 0 => Done (sh, w, inject)
  | S n' =>
      if exitflag sh then Done (sh, w, inject)
      else
        '(sh, w, inject) ← prompt_step sh w inject;
        prompt_rounds n' sh w inject
  end.

Definition prompt (n : nat) (sh : shell_instance_t) (w : world)
    : outcome (shell_instance_t * world * byte) :=
  prompt_rounds n sh w 0.

(** The session [shell_instance_thread] sets up on a zeroed allocation,
    before it calls [prompt]. *)
Definition new_instance (shellserver : shellserver_t) (connfd : Z) : shell_instance_t :=
  {| input_buffer := replicate SHELL_CMD_BUFFER_SIZE 0;
     history := replicate SHELL_HISTORY_LENGTH (replicate SHELL_CMD_BUFFER_SIZE 0);
     cursor_index := 0;
     input_index := 0;
     history_index := -1;
     history_save_index := 0;
     head_cmd := server_head_cmd shellserver;
     exitflag := false;
     readfs := None;
     readf := connfd;
     savereadf := -1;
     writef := connfd;
     sstat := Stat 0 0;
     current_command := CurrentCommand None (replicate SHELL_MAX_ARGS None) 0 |}.


End Prompt.

(** ** Predicates used by the proofs *)

(** What the tokenizer loop, entered at [iter] with [nargs] arguments
    collected, leaves behind when the rest of the line has the tokens
    [toks]: the count, a buffer of the same size that is untouched in front
    of [iter], and one pointer per token, behind which the token stands. *)
Definition tok_post (buf : list byte) (iter : nat) (args : list (option nat))
    (nargs : nat) (toks : list (list byte)) (t : tok_state) : Prop :=
  tk_nargs t = nargs + length toks ∧
  length (tk_buf t) = length buf ∧
  take iter (tk_buf t) = take iter buf ∧
  ∃ ps, tk_args t = take nargs args ++ (Some <$> ps) ++ drop (nargs + length toks) args ∧
        Forall2 (λ p tok, iter ≤ p ∧ cstr_at (tk_buf t) p = tok) ps toks.

(** The states a run ends in or gets stuck in. *)
Definition reached (o : outcome (shell_instance_t * world))
    (sh : shell_instance_t) (w : world) : Prop :=
  o = Done (sh, w) ∨ ∃ f, o = Stuck f sh w.

(** The registry as a list: the descriptors reached from [head] by the
    [next] links, up to the NULL that ends the list. *)
Inductive registry (mem : gmap addr shell_cmd_t)
    : option addr → list (addr * shell_cmd_t) → Prop :=
| registry_nil : registry mem None []
| registry_cons a d l :
    mem !! a = Some d → registry mem (next d) l → registry mem (Some a) ((a, d) :: l).

(** The walk of [parse_input] on that list: the first descriptor whose name
    compares equal to [arg0] on the first [n] bytes; the walk ends without a
    command at a descriptor that has no name. *)
Fixpoint find_command (l : list (addr * shell_cmd_t)) (arg0 : list byte) (n : nat)
    : option addr :=
  match l with
  | [] => None
  | (a, d) :: l' =>
      match name d with
      | None => None
      | Some nm => if (strncmp arg0 nm n =? 0)%Z then Some a else find_command l' arg0 n
      end
  end.


Section ProofDefinitions.
Context `{ShellConfig}.

(** The line [parse_input] works on: the buffer, closed at its last byte by
    [sh->input_buffer[sizeof(sh->input_buffer)-1] = 0]. *)
Definition parsed_buffer (sh : shell_instance_t) : list byte :=
  <[SHELL_CMD_BUFFER_SIZE - 1 := 0]> (input_buffer sh).

(** The session as [parse_input] has it when the walk through the registry
    starts: the line saved in the history and cut into arguments. *)
Definition tokenized (sh : shell_instance_t) : shell_instance_t :=
  let cc := current_command sh in
  let sh := set_current_command sh (CurrentCommand None (args cc) (nargs cc)) in
  let sh := set_input_buffer sh (parsed_buffer sh) in
  let sh := history_save sh in
  let t := tokenize (input_buffer sh) in
  let sh := set_input_buffer sh (tk_buf t) in
  set_current_command sh (CurrentCommand None (tk_args t) (tk_nargs t)).

(** The session when the byte '\n' arrives, with the line closed at
    [input_index]. *)
Definition finalized (sh : shell_instance_t) : shell_instance_t :=
  set_input_buffer sh (<[input_index sh := 0]> (input_buffer sh)).

(** The session [parse_input] returns when the walk ends at the descriptor
    [c]: the command is [c] and the count is one less. *)
Definition matched (sh : shell_instance_t) (c : addr) : shell_instance_t :=
  set_current_command (tokenized sh)
    (CurrentCommand (Some c) (args (current_command (tokenized sh)))
       (nargs (current_command (tokenized sh)) - 1)).

(** The history ring as the code keeps it: SHELL_HISTORY_LENGTH slots of
    SHELL_CMD_BUFFER_SIZE bytes whose last byte is never written, and a
    write cursor inside the ring. *)
Definition history_wf (sh : shell_instance_t) : Prop :=
  length (history sh) = SHELL_HISTORY_LENGTH ∧
  Forall (λ slot, length slot = SHELL_CMD_BUFFER_SIZE ∧
                  get slot (SHELL_CMD_BUFFER_SIZE - 1) = 0) (history sh) ∧
  history_save_index sh < SHELL_HISTORY_LENGTH.

(** [parse_input] on one finalized line after the other: between two lines
    the editor refills the buffer, here with the bytes of the next line. *)
Fixpoint finalize_lines (sh : shell_instance_t) (w : world) (bufs : list (list byte))
    : outcome (shell_instance_t * world) :=
  match bufs with
  | [] => Done (sh, w)
  | b :: rest =>
      '(sh, w) ← parse_input (set_input_buffer sh b) w;
      finalize_lines sh w rest
  end.

(** The line a buffer holds for [parse_input]. *)
Definition line_of (b : list byte) : list byte :=
  cstr (<[SHELL_CMD_BUFFER_SIZE - 1 := 0]> b).

(** The ring as the lines it stores and its write cursor; a line that is
    pushed goes into the slot at the cursor. *)
Definition ring_push (r : list (list byte) * nat) (line : list byte)
    : list (list byte) * nat :=
  (<[r.2 := line]> r.1, (r.2 + 1) mod SHELL_HISTORY_LENGTH).


End ProofDefinitions.

(** ** A small configuration, to run the code on *)

Definition cfg0 : ShellConfig :=
  {| SHELL_CMD_BUFFER_SIZE := 16; SHELL_HISTORY_LENGTH := 2; SHELL_MAX_ARGS := 4;
     SHELL_CMD_KILL := 1; SHELL_CMD_CHDIR := 2; SHELL_CMD_PRINT_CMDS := 3; SHELL_CMD_PRINT_USAGE := 4 |}.

(** Handlers that write nothing and return 0; [shell_cmd_init] stores the
    function, the name and the usage that are given and resets the link. *)
Definition env0 : ShellEnv :=
  {| shell_cmd_init := λ d f n u,
       ShellCmd (if n is Some _ then n else name d) (if u is Some _ then u else usage d)
                (if f is Some _ then f else cmdfunc d) None;
     run_cmdfunc := λ _ _ _ _ w, (0%Z, w) |}.

(** A command "ls" at address 1, with the handler at address 7. *)
Definition ls_cmd : shell_cmd_t :=
  ShellCmd (Some (bytes "ls")) (Some (bytes "ls [-l]")) (Some 7) None.

(** A world with that command, and a connection 0 that delivers [input]. *)
Definition world0 (input : list byte) : world :=
  World {[ 1 := ls_cmd ]} {[ 0%Z := Stream input 0 ]} ∅ [] [] [] [].

(** A session of [cfg0] on that registry, with [line] in its buffer. *)
Definition session0 (line : list byte) : shell_instance_t :=
  set_input_buffer (@new_instance cfg0 (ShellServer (Some 1)) 0)
    (take 16 (line ++ replicate 16 0)).

(** That session with [line] typed and the cursor at its end. *)
Definition typed0 (line : list byte) : shell_instance_t :=
  set_indices (session0 line) (length line) (length line).





(** A buffer of [cfg0] that holds [line]. *)
Definition buffer0 (line : list byte) : list byte := take 16 (line ++ replicate 16 0).

(** A world with "ls" registered, a regular file "run" that holds
    [content], and a connection 0 on which [run] and a newline arrive. *)
Definition world_script (content : list byte) : world :=
  World {[ 1 := ls_cmd ]} {[ 0%Z := Stream (bytes "run" ++ [NEWLINE]) 0 ]}
        {[ bytes "run" := File S_IFREG (length content) (Some content) ]} [] [] [] [].


(** The session and the world after eight rounds on [world_script] with
    the file content [ls -l]: the line [run] has opened the file and the bytes
    [ls -] are read; the last byte of the file is next. *)
Definition script_session : shell_instance_t :=
  match @prompt cfg0 env0 8 (@new_instance cfg0 (ShellServer (Some 1)) 0)
          (world_script (bytes "ls -l")) with
  | Done (sh, _, _) => sh
  | _ => @new_instance cfg0 (ShellServer (Some 1)) 0
  end.

Definition script_world : world :=
  match @prompt cfg0 env0 8 (@new_instance cfg0 (ShellServer (Some 1)) 0)
          (world_script (bytes "ls -l")) with
  | Done (_, w, _) => w
  | _ => world_script (bytes "ls -l")
  end.

(** That world with the last byte of the file read. *)
Definition script_world_read : world :=
  match @read (readf script_session) script_world with
  | Some (_, w) => w
  | None => script_world
  end.

(** ** Basic facts on C strings *)

Lemma get_nil i : get [] i = 0.
Proof. by destruct i. Qed.

Lemma get_cons_0 c l : get (c :: l) 0 = c.
Proof. done. Qed.

Lemma get_cons_S c l i : get (c :: l) (S i) = get l i.
Proof. done. Qed.

Lemma get_drop l i j : get (drop i l) j = get l (i + j).
Proof. unfold get. by rewrite lookup_drop. Qed.

Lemma get_ge l i : length l ≤ i → get l i = 0.
Proof. intros Hi. unfold get. by rewrite lookup_ge_None_2. Qed.

Lemma get_lt_length l i : get l i ≠ 0 → i < length l.
Proof.
  intros Hg. destruct (decide (i < length l)) as [|Hn]; [done|].
  rewrite get_ge in Hg; [done | lia].
Qed.

Lemma get_insert_eq l i c : i < length l → get (<[i := c]> l) i = c.
Proof. intros Hi. unfold get. by rewrite list_lookup_insert_eq. Qed.

Lemma get_insert_ne l i j c : i ≠ j → get (<[i := c]> l) j = get l j.
Proof. intros Hi. unfold get. by rewrite list_lookup_insert_ne. Qed.

Lemma cstr_length_le l : length (cstr l) ≤ length l.
Proof. induction l as [|c l IH]; simpl; [lia|]. destruct (c =? 0); simpl; lia. Qed.

Lemma cstr_drop_zero buf i : get buf i = 0 → cstr (drop i buf) = [].
Proof.
  intros Hg. destruct (drop i buf) as [|c l] eqn:Hd; [done|].
  assert (get (drop i buf) 0 = c) as Hc by by rewrite Hd.
  rewrite get_drop, Nat.add_0_r, Hg in Hc. subst c. done.
Qed.

Lemma cstr_drop_nonzero buf i :
  get buf i ≠ 0 → cstr (drop i buf) = get buf i :: cstr (drop (S i) buf).
Proof.
  intros Hg. pose proof (get_lt_length _ _ Hg) as Hi.
  destruct (lookup_lt_is_Some_2 buf i Hi) as [c Hc].
  rewrite (drop_S _ _ _ Hc). unfold get in *. rewrite Hc in Hg |- *. simpl in *.
  destruct (c =? 0) eqn:E; [apply Nat.eqb_eq in E; done | done].
Qed.

(** ** The two scanning loops *)

Lemma cstr_cons c l : cstr (c :: l) = if c =? 0 then [] else c :: cstr l.
Proof. done. Qed.

Lemma span_cons cond c l : span cond (c :: l) = if cond c then S (span cond l) else 0.
Proof. done. Qed.

Lemma drop_spaces_cons c l :
  drop_spaces (c :: l) = if c =? SPACE then drop_spaces l else c :: l.
Proof. done. Qed.

Lemma take_until_cons d c l :
  take_until d (c :: l) = if c =? d then [] else c :: take_until d l.
Proof. done. Qed.

Lemma span_le cond l : span cond l ≤ length l.
Proof. induction l as [|c l IH]; simpl; [lia|]. destruct (cond c); simpl; lia. Qed.

Lemma skip_spaces_cstr l :
  cstr (drop (span (λ c, negb (c =? 0) && (c =? SPACE)) l) l) = drop_spaces (cstr l).
Proof.
  induction l as [|c l IH]; [done|]. rewrite span_cons, cstr_cons.
  destruct (c =? 0) eqn:E0; cbn [negb andb].
  - by rewrite drop_0, cstr_cons, E0.
  - rewrite drop_spaces_cons. destruct (c =? SPACE) eqn:Es.
    + by rewrite skipn_cons.
    + by rewrite drop_0, cstr_cons, E0.
Qed.

Section Delimiter.
Variable d : nat.

Local Abbreviation until_d := (λ c : nat, negb (c =? 0) && negb (c =? d)).

Lemma find_delimiter_token l :
  take_until d (cstr l) = take (span until_d l) l.
Proof.
  induction l as [|c l IH]; [done|]. rewrite span_cons, cstr_cons.
  destruct (c =? 0) eqn:E0; cbn [negb andb]; [done|].
  rewrite take_until_cons.
  destruct (c =? d) eqn:Ed; cbn [negb andb]; [done|]. by rewrite IH.
Qed.

Lemma find_delimiter_length l :
  length (take_until d (cstr l)) = span until_d l.
Proof.
  rewrite find_delimiter_token, length_take. pose proof (span_le until_d l). lia.
Qed.

(** The loop stops on NUL or on the delimiter. *)
Lemma find_delimiter_stop l :
  get l (span until_d l) = 0 ∨ get l (span until_d l) = d.
Proof.
  induction l as [|c l IH]; [by left|]. rewrite span_cons.
  destruct (c =? 0) eqn:E0; cbn [negb andb].
  - left. by apply Nat.eqb_eq in E0.
  - destruct (c =? d) eqn:Ed; cbn [negb andb]; [right; by apply Nat.eqb_eq in Ed | done].
Qed.

(** Stopped on NUL: the token is the rest of the line. *)
Lemma find_delimiter_end l :
  get l (span until_d l) = 0 → cstr l = take (span until_d l) l.
Proof.
  induction l as [|c l IH]; [done|]. rewrite span_cons, cstr_cons.
  destruct (c =? 0) eqn:E0; cbn [negb andb]; [done|].
  destruct (c =? d) eqn:Ed; cbn [negb andb].
  - rewrite get_cons_0. intros ->. done.
  - rewrite get_cons_S. intros Hg. cbn [take]. f_equal. by apply IH.
Qed.

(** Stopped on the delimiter: cutting there leaves the token in front and
    the rest of the line behind. *)
Lemma find_delimiter_cut l :
  get l (span until_d l) ≠ 0 →
  cstr (<[span until_d l := 0]> l) = take (span until_d l) l ∧
  cstr (drop (S (span until_d l)) l) = drop (S (span until_d l)) (cstr l).
Proof.
  induction l as [|c l IH]; [done|]. rewrite span_cons, cstr_cons.
  destruct (c =? 0) eqn:E0; cbn [negb andb].
  { rewrite get_cons_0. intros []. by apply Nat.eqb_eq. }
  destruct (c =? d) eqn:Ed; cbn [negb andb].
  - intros _. split; reflexivity.
  - rewrite get_cons_S. intros Hg. destruct (IH Hg) as [He1 He2].
    split.
    + change (cstr (c :: <[span until_d l:=0]> l) = c :: take (span until_d l) l).
      by rewrite cstr_cons, E0, He1.
    + by rewrite !skipn_cons.
Qed.

End Delimiter.

(** Two buffers that agree up to and including a terminator hold the same
    string in front of it. *)
Lemma cstr_agree m : ∀ l1 l2,
  take (S m) l1 = take (S m) l2 → get l2 m = 0 → cstr l1 = cstr l2.
Proof.
  induction m as [|m IH]; intros l1 l2 Ht Hz.
  - destruct l2 as [|c2 l2], l1 as [|c1 l1]; simplify_eq/=; try done.
    rewrite get_cons_0 in Hz. by subst.
  - destruct l2 as [|c2 l2], l1 as [|c1 l1]; try done.
    cbn [take] in Ht. injection Ht as -> Ht.
    rewrite get_cons_S in Hz. rewrite !cstr_cons.
    destruct (c2 =? 0); [done|]. f_equal. by apply IH.
Qed.

Lemma cstr_at_agree b1 b2 p q k :
  take k b1 = take k b2 → p ≤ q → q < k → get b2 q = 0 →
  cstr_at b1 p = cstr_at b2 p.
Proof.
  intros Ht Hp Hq Hz. unfold cstr_at. apply (cstr_agree (q - p)).
  - rewrite !take_drop_commute. f_equal.
    replace (p + S (q - p)) with (S q `min` k) by lia.
    by rewrite <- !take_take, Ht.
  - rewrite get_drop. by replace (p + (q - p)) with q by lia.
Qed.

(** ** The tokenizer against the wording of the specification *)

Lemma spec_tokens_from_nil fuel : spec_tokens_from fuel [] = [].
Proof. by destruct fuel. Qed.

Lemma drop_spaces_length l : length (drop_spaces l) ≤ length l.
Proof.
  induction l as [|c l IH]; [done|]. rewrite drop_spaces_cons.
  destruct (c =? SPACE); simpl; lia.
Qed.

(** A line of [n] bytes has at most [n] tokens: more fuel changes nothing. *)
Lemma spec_tokens_from_fuel f1 : ∀ f2 line,
  length line ≤ f1 → length line ≤ f2 →
  spec_tokens_from f1 line = spec_tokens_from f2 line.
Proof.
  induction f1 as [|f1 IH]; intros f2 line H1 H2.
  - destruct line; [|simpl in H1; lia]. by rewrite !spec_tokens_from_nil.
  - destruct f2 as [|f2].
    { destruct line; [|simpl in H2; lia]. by rewrite !spec_tokens_from_nil. }
    cbn [spec_tokens_from]. pose proof (drop_spaces_length line) as Hd.
    destruct (drop_spaces line) as [|c rest]; [done|]. simpl in Hd.
    destruct (is_quote c); f_equal; apply IH; rewrite length_drop; simpl; lia.
Qed.

Section TokenizerFacts.
Context `{ShellConfig}.

Lemma tokenize_loop_S fuel buf iter args nargs :
  tokenize_loop (S fuel) buf iter args nargs =
  if get buf iter =? 0 then TokState buf args nargs
  else
    let iter := skip_spaces buf iter in
    if get buf iter =? 0 then TokState buf args nargs
    else
      let quoted := is_quote (get buf iter) in
      let delimiter := if quoted then get buf iter else 0 in
      let iter := if quoted then S iter else iter in
      let args := <[nargs := Some iter]> args in
      let nargs := S nargs in
      if SHELL_MAX_ARGS <=? nargs then TokState buf args nargs
      else
        let delimiter := if delimiter =? 0 then SPACE else delimiter in
        let iter := find_delimiter buf iter delimiter in
        if get buf iter =? 0
        then tokenize_loop fuel buf iter args nargs
        else tokenize_loop fuel (<[iter := 0]> buf) (S iter) args nargs.
Proof. done. Qed.

(** At the end of the line the loop is left at once. *)
Lemma tokenize_loop_end fuel buf iter args nargs :
  get buf iter = 0 → tokenize_loop fuel buf iter args nargs = TokState buf args nargs.
Proof. intros Hz. destruct fuel; [done|]. by rewrite tokenize_loop_S, Hz. Qed.

(** One round of the loop, reduced to its two scans: [p] is where the token
    starts and [d] the delimiter that closes it; and the same round in the
    wording of the specification. *)
Lemma tokenize_loop_round fuel buf iter args nargs :
  get buf iter ≠ 0 →
  get buf (skip_spaces buf iter) ≠ 0 →
  ∃ p d, d ≠ 0 ∧ iter ≤ p ∧ p ≤ S (skip_spaces buf iter) ∧
    (let tok := take_until d (cstr (drop p buf)) in
     spec_tokens_from (S fuel) (cstr (drop iter buf)) =
     tok :: spec_tokens_from fuel (drop (S (length tok)) (cstr (drop p buf)))) ∧
    tokenize_loop (S fuel) buf iter args nargs =
    if SHELL_MAX_ARGS <=? S nargs then TokState buf (<[nargs := Some p]> args) (S nargs)
    else
      let iter2 := find_delimiter buf p d in
      if get buf iter2 =? 0
      then tokenize_loop fuel buf iter2 (<[nargs := Some p]> args) (S nargs)
      else tokenize_loop fuel (<[iter2 := 0]> buf) (S iter2) (<[nargs := Some p]> args) (S nargs).
Proof.
  intros H0 H1. set (iter1 := skip_spaces buf iter) in *.
  assert (drop_spaces (cstr (drop iter buf)) = get buf iter1 :: cstr (drop (S iter1) buf)) as Hline.
  { rewrite <- skip_spaces_cstr, drop_drop. by apply cstr_drop_nonzero. }
  assert (iter ≤ iter1) as Hle by (unfold iter1, skip_spaces; lia).
  rewrite tokenize_loop_S. cbv zeta. fold iter1.
  apply Nat.eqb_neq in H0 as ->. pose proof H1 as H1'. apply Nat.eqb_neq in H1' as ->.
  cbn [spec_tokens_from]. rewrite Hline.
  destruct (is_quote (get buf iter1)) eqn:Hq.
  - exists (S iter1), (get buf iter1). split_and!; [done|lia|lia|done|].
    apply Nat.eqb_neq in H1 as ->. done.
  - exists iter1, SPACE. split_and!; [done|lia|lia| |done].
    by rewrite (cstr_drop_nonzero buf iter1).
Qed.

Lemma tok_post_stop buf iter args nargs :
  tok_post buf iter args nargs [] (TokState buf args nargs).
Proof.
  unfold tok_post. cbn [tk_nargs tk_buf tk_args length]. split_and!; try done.
  exists []. split; [|constructor]. rewrite Nat.add_0_r. simpl. by rewrite take_drop.
Qed.

(** The loop yields the tokens of the specification, as long as they fit
    into the argument vector. *)
Lemma tokenize_loop_spec fuel : ∀ buf iter args nargs,
  nargs + length (spec_tokens_from fuel (cstr (drop iter buf))) < SHELL_MAX_ARGS →
  length args = SHELL_MAX_ARGS →
  tok_post buf iter args nargs (spec_tokens_from fuel (cstr (drop iter buf)))
    (tokenize_loop fuel buf iter args nargs).
Proof.
  induction fuel as [|fuel IH]; intros buf iter args nargs Hfit Hargs.
  { apply tok_post_stop. }
  destruct (decide (get buf iter = 0)) as [H0|H0].
  { rewrite tokenize_loop_end, (cstr_drop_zero _ _ H0) by done. apply tok_post_stop. }
  destruct (decide (get buf (skip_spaces buf iter) = 0)) as [H1|H1].
  { replace (spec_tokens_from (S fuel) (cstr (drop iter buf))) with (@nil (list nat)).
    2:{ cbn [spec_tokens_from]. rewrite <- skip_spaces_cstr, drop_drop.
        unfold skip_spaces in H1. by rewrite (cstr_drop_zero _ _ H1). }
    rewrite tokenize_loop_S. apply Nat.eqb_neq in H0 as ->. cbv zeta.
    apply Nat.eqb_eq in H1 as ->. apply tok_post_stop. }
  destruct (tokenize_loop_round fuel buf iter args nargs H0 H1)
    as (p & d & Hd & Hp & Hp1 & Hspec & Hcode).
  cbv zeta in Hspec. rewrite Hspec in Hfit |- *. rewrite Hcode. clear Hspec Hcode.
  remember (drop p buf) as l eqn:El.
  pose proof (find_delimiter_length d l) as Hlen.
  pose proof (find_delimiter_token d l) as Htok.
  pose proof (find_delimiter_end d l) as Hend.
  pose proof (find_delimiter_cut d l) as Hcut.
  unfold find_delimiter. rewrite <- El.
  remember (span (λ c, negb (c =? 0) && negb (c =? d)) l) as n eqn:En.
  remember (take_until d (cstr l)) as tok eqn:Et.
  clear En Et. subst n. cbn [length] in Hfit.
  assert ((SHELL_MAX_ARGS <=? S nargs) = false) as -> by (apply Nat.leb_gt; lia).
  cbv zeta.
  assert (get l (length tok) = get buf (p + length tok)) as Hget
    by (by rewrite El, get_drop).
  rewrite Hget in Hend, Hcut.
  destruct (decide (get buf (p + length tok) = 0)) as [H2|H2].
  - (* the token ends the line *)
    apply Nat.eqb_eq in H2 as H2'. rewrite H2'. rewrite tokenize_loop_end by done.
    assert (cstr l = tok) as Hl by (by rewrite Htok, <- Hend).
    rewrite Hl, drop_ge, spec_tokens_from_nil by lia.
    unfold tok_post. cbn [tk_nargs tk_buf tk_args length]. split_and!; [lia|done|done|].
    exists [p]. split.
    + rewrite <- (take_drop_middle (<[nargs:=Some p]> args) nargs (Some p)) at 1.
      2:{ apply list_lookup_insert_eq. lia. }
      rewrite take_insert_ge, drop_insert_lt by lia.
      by replace (nargs + 1) with (S nargs) by lia.
    + repeat constructor; [done|]. unfold cstr_at. by rewrite <- El.
  - (* the token is cut at its delimiter; the loop goes on behind it *)
    apply Nat.eqb_neq in H2 as H2'. rewrite H2'.
    destruct (Hcut H2) as [Hfront Hback].
    remember (<[p + length tok := 0]> buf) as buf2 eqn:Eb.
    assert (length buf2 = length buf) as Hlb by (by rewrite Eb, length_insert).
    assert (cstr (drop (S (p + length tok)) buf2) = drop (S (length tok)) (cstr l)) as Hrest.
    { rewrite Eb, drop_insert_lt by lia. rewrite <- Hback, El, drop_drop. f_equal. f_equal. lia. }
    assert (cstr_at buf2 p = tok) as Hhere.
    { unfold cstr_at. rewrite Eb, drop_insert_ge, <- El by lia.
      replace (p + length tok - p) with (length tok) by lia. by rewrite Hfront. }
    rewrite <- Hrest in Hfit |- *.
    destruct (IH buf2 (S (p + length tok)) (<[nargs := Some p]> args) (S nargs))
      as (Hn & Hlen2 & Htake & ps & Hargs2 & Hps); [lia|by rewrite length_insert|].
    remember (tokenize_loop fuel buf2 (S (p + length tok)) (<[nargs:=Some p]> args) (S nargs))
      as t eqn:Ett. clear Ett.
    remember (spec_tokens_from fuel (cstr (drop (S (p + length tok)) buf2))) as toks eqn:Etoks.
    clear Etoks.
    unfold tok_post. cbn [length]. split_and!; [lia|congruence| |].
    + assert (∀ b : list nat, take iter b = take iter (take (S (p + length tok)) b)) as Hin
        by (intros b; by rewrite take_take, Nat.min_l by lia).
      rewrite (Hin (tk_buf t)), Htake, <- Hin. by rewrite Eb, take_insert_ge by lia.
    + exists (p :: ps). split.
      * rewrite Hargs2.
        rewrite (take_S_r _ _ (Some p)) by (apply list_lookup_insert_eq; lia).
        rewrite take_insert_ge, drop_insert_lt by lia.
        rewrite <- app_assoc. cbn [app fmap list_fmap].
        by replace (nargs + S (length toks)) with (S nargs + length toks) by lia.
      * constructor.
        -- split; [done|]. rewrite <- Hhere.
           apply (cstr_at_agree _ _ p (p + length tok) (S (p + length tok))); [done|lia|lia|].
           rewrite Eb. apply get_insert_eq. by apply get_lt_length.
        -- eapply Forall2_impl; [exact Hps|]. intros q tk [Hq ?]. split; [lia|done].
Qed.

End TokenizerFacts.

(** ** The argument vector at its capacity *)

Section Capacity.
Context `{ShellConfig}.

(** The loop only adds arguments, and writes no slot but the ones it adds. *)
Lemma tokenize_loop_frame fuel : ∀ buf iter args nargs,
  nargs ≤ tk_nargs (tokenize_loop fuel buf iter args nargs) ∧
  ∀ k, k < nargs ∨ tk_nargs (tokenize_loop fuel buf iter args nargs) ≤ k →
       tk_args (tokenize_loop fuel buf iter args nargs) !! k = args !! k.
Proof.
  induction fuel as [|fuel IH]; intros buf iter args nargs; [done|].
  rewrite tokenize_loop_S. cbv zeta.
  repeat case_match; cbn [tk_nargs tk_args]; try done;
    try (split; [lia|]; intros k Hk; apply list_lookup_insert_ne; lia);
    match goal with
    | |- context [tokenize_loop fuel ?b ?i ?a ?n] =>
        destruct (IH b i a n) as [Hle Hfr]; split; [lia|];
        intros k Hk; rewrite Hfr by lia; apply list_lookup_insert_ne; lia
    end.
Qed.

(** The token that fills the last slot is not cut: the loop is left with the
    buffer as it is. *)
Lemma tokenize_loop_last_slot fuel buf iter args nargs :
  get buf iter ≠ 0 → get buf (skip_spaces buf iter) ≠ 0 →
  SHELL_MAX_ARGS ≤ S nargs →
  tk_buf (tokenize_loop (S fuel) buf iter args nargs) = buf.
Proof.
  intros H0 H1 Hcap.
  destruct (tokenize_loop_round fuel buf iter args nargs H0 H1) as (p & d & _ & _ & _ & _ & ->).
  by apply Nat.leb_le in Hcap as ->.
Qed.

(** The loop needs no more rounds than the buffer has bytes after [iter]:
    one more round of fuel changes nothing. *)
Lemma tokenize_loop_fuel fuel : ∀ buf iter args nargs,
  length buf ≤ iter + fuel →
  tokenize_loop (S fuel) buf iter args nargs = tokenize_loop fuel buf iter args nargs.
Proof.
  induction fuel as [|fuel IH]; intros buf iter args nargs Hlen.
  { rewrite !tokenize_loop_end; [done| |]; apply get_ge; lia. }
  rewrite (tokenize_loop_S (S fuel)), (tokenize_loop_S fuel). cbv zeta.
  repeat case_match; try done;
    try (rewrite !tokenize_loop_end; [done| |]; by apply Nat.eqb_eq);
    apply IH; rewrite length_insert; unfold find_delimiter, skip_spaces; lia.
Qed.

Lemma tokenize_fuel fuel buf :
  length buf ≤ fuel →
  tokenize_loop fuel buf 0 (replicate SHELL_MAX_ARGS None) 0 = tokenize buf.
Proof.
  unfold tokenize. induction 1 as [|fuel Hle IH]; [done|].
  rewrite tokenize_loop_fuel; [done | lia].
Qed.

End Capacity.

(** ** strncmp *)

Lemma cstr_head s : cstr s = if get s 0 =? 0 then [] else get s 0 :: cstr (tail s).
Proof. destruct s as [|c s]; [done|]. by rewrite cstr_cons, get_cons_0. Qed.

(** The bounded comparison answers 0 exactly when the two strings are the
    same on their first [n] bytes. *)
Lemma strncmp_0 n : ∀ s1 s2,
  strncmp s1 s2 n = 0%Z ↔ take n (cstr s1) = take n (cstr s2).
Proof.
  induction n as [|n IH]; intros s1 s2; [done|].
  cbn [strncmp]. rewrite (cstr_head s1), (cstr_head s2).
  destruct (get s1 0 =? get s2 0) eqn:E.
  - apply Nat.eqb_eq in E. rewrite <- E.
    destruct (get s1 0 =? 0); [done|]. rewrite IH. cbn [take]. split; [by intros ->|].
    by intros [=].
  - apply Nat.eqb_neq in E. split; [lia|].
    destruct (get s1 0 =? 0) eqn:E1, (get s2 0 =? 0) eqn:E2; cbn [take]; try done.
    + apply Nat.eqb_eq in E1, E2. congruence.
    + by intros [=].
Qed.

Lemma strncmp_same n s1 s2 : cstr s1 = cstr s2 → strncmp s1 s2 n = 0%Z.
Proof. intros E. apply strncmp_0. by rewrite E. Qed.

(** ** The registry as a list *)

Lemma registry_functional mem head l1 :
  registry mem head l1 → ∀ l2, registry mem head l2 → l1 = l2.
Proof.
  induction 1 as [|a d l Hd Hl IH]; intros l2 H2; inversion H2; simplify_eq; [done|].
  f_equal. by apply IH.
Qed.

Lemma registry_suffix mem head l1 a d l2 :
  registry mem head (l1 ++ (a, d) :: l2) → registry mem (Some a) ((a, d) :: l2).
Proof.
  revert head. induction l1 as [|[a1 d1] l1 IH]; intros head Hr.
  - by inversion Hr; simplify_eq.
  - inversion Hr; simplify_eq. by eapply IH.
Qed.

Lemma registry_lookup mem head l a d :
  registry mem head l → (a, d) ∈ l → mem !! a = Some d.
Proof.
  induction 1 as [|a' d' l Hd Hl IH]; intros Hin; [by apply elem_of_nil in Hin|].
  apply elem_of_cons in Hin as [[= -> ->]|Hin]; [done | by apply IH].
Qed.

(** A list that ends cannot come back to a descriptor. *)
Lemma registry_NoDup mem head l : registry mem head l → NoDup l.*1.
Proof.
  induction 1 as [|a d l Hd Hl IH]; [constructor|].
  rewrite fmap_cons. constructor; [|done].
  intros Hin. apply list_elem_of_fmap in Hin as ([a' d'] & Ha & Hin). simpl in Ha. subst a'.
  apply list_elem_of_split in Hin as (l1 & l2 & ->).
  pose proof (registry_suffix _ _ _ _ _ _ Hl) as Hs.
  assert (mem !! a = Some d') as Hd' by (by inversion Hs).
  assert (d' = d) as -> by congruence.
  pose proof (registry_functional _ _ _ Hs _ (registry_cons _ _ _ _ Hd Hl)) as Heq.
  apply (f_equal length) in Heq. rewrite !length_cons, length_app, length_cons in Heq. lia.
Qed.

Lemma registry_length mem head l : registry mem head l → length l ≤ size mem.
Proof.
  intros Hr. rewrite <- (length_fmap fst), <- size_dom.
  rewrite <- (size_list_to_set (C := gset nat)) by by eapply registry_NoDup.
  apply subseteq_size. intros a Ha. apply elem_of_list_to_set in Ha.
  apply list_elem_of_fmap in Ha as ([a' d] & -> & Hin).
  apply elem_of_dom. eexists. by eapply registry_lookup.
Qed.

(** On a registry that ends, the walk of [parse_input] ends, at the
    descriptor [find_command] names. *)
Lemma match_command_registry mem head l s n :
  registry mem head l →
  ∀ fuel, length l < fuel →
  ∃ hd, match_command fuel mem head (Some s) n = Walk_end hd ∧
        (if has_name mem hd then hd else None) = find_command l s n.
Proof.
  induction 1 as [|a d l Hd Hl IH]; intros fuel Hf.
  - destruct fuel; [simpl in Hf; lia|]. by exists None.
  - destruct fuel as [|fuel]; [simpl in Hf; lia|]. cbn [match_command find_command].
    rewrite Hd. destruct (name d) as [nm|] eqn:Hn.
    + destruct (strncmp s nm n =? 0)%Z.
      * exists (Some a). split; [done|]. cbn [has_name]. rewrite Hd, Hn.
        by rewrite bool_decide_eq_true_2.
      * apply IH. simpl in Hf. lia.
    + exists (Some a). split; [done|]. cbn [has_name]. rewrite Hd, Hn.
      by rewrite bool_decide_eq_false_2 by (by intros [? ?]).
Qed.

(** On a registry that ends the walk does not go on for ever, whatever
    argument 0 is. *)
Lemma match_command_ends mem head l arg0 n :
  registry mem head l →
  ∀ fuel, length l < fuel → match_command fuel mem head arg0 n ≠ Walk_diverges.
Proof.
  induction 1 as [|a d l Hd Hl IH]; intros fuel Hf.
  - destruct fuel; [simpl in Hf; lia|]. done.
  - destruct fuel as [|fuel]; [simpl in Hf; lia|]. cbn [match_command].
    rewrite Hd. repeat case_match; try done. apply IH. simpl in Hf. lia.
Qed.

(** ** parse_input, step by step *)

Section ParseInputFacts.
Context `{ShellConfig}.

Lemma history_save_input_buffer sh : input_buffer (history_save sh) = input_buffer sh.
Proof. unfold history_save. by destruct (get (input_buffer sh) 0 =? 0). Qed.

Lemma history_save_head_cmd sh : head_cmd (history_save sh) = head_cmd sh.
Proof. unfold history_save. by destruct (get (input_buffer sh) 0 =? 0). Qed.

Lemma history_save_ext sh1 sh2 :
  input_buffer sh1 = input_buffer sh2 → history sh1 = history sh2 →
  history_save_index sh1 = history_save_index sh2 →
  history (history_save sh1) = history (history_save sh2) ∧
  history_save_index (history_save sh1) = history_save_index (history_save sh2).
Proof.
  intros Hb Hh Hi. unfold history_save. rewrite Hb, Hh, Hi.
  by destruct (get (input_buffer sh2) 0 =? 0).
Qed.

(** Whatever the registry holds, a state [parse_input] ends in or gets stuck
    in carries the tokens of the line and the history with the line saved. *)
Lemma parse_input_reached sh w sh' w' :
  is_Some (head_cmd sh) →
  reached (parse_input sh w) sh' w' →
  let t := tokenize (parsed_buffer sh) in
  let hs := history_save (set_input_buffer sh (parsed_buffer sh)) in
  input_buffer sh' = tk_buf t ∧
  args (current_command sh') = tk_args t ∧
  history sh' = history hs ∧
  history_save_index sh' = history_save_index hs.
Proof.
  intros [h Hh] Hr. unfold parse_input in Hr. cbn [head_cmd set_current_command] in Hr.
  rewrite Hh in Hr. cbv zeta in Hr.
  rewrite !history_save_input_buffer in Hr. cbn [input_buffer set_input_buffer] in Hr.
  fold (parsed_buffer sh) in Hr.
  assert (history (history_save (set_input_buffer (set_current_command sh
            (CurrentCommand None (args (current_command sh)) (nargs (current_command sh))))
            (parsed_buffer sh))) = history (history_save (set_input_buffer sh (parsed_buffer sh)))
          ∧ history_save_index (history_save (set_input_buffer (set_current_command sh
            (CurrentCommand None (args (current_command sh)) (nargs (current_command sh))))
            (parsed_buffer sh)))
            = history_save_index (history_save (set_input_buffer sh (parsed_buffer sh))))
    as [Hh1 Hh2] by (by apply history_save_ext).
  destruct (match_command _ _ _ _ _) as [hd|f|] in Hr.
  - destruct (has_name _ hd) in Hr; destruct Hr as [Hr|[f Hr]]; simplify_eq; done.
  - destruct Hr as [Hr|[f' Hr]]; simplify_eq; done.
  - destruct Hr as [Hr|[f' Hr]]; simplify_eq.
Qed.

End ParseInputFacts.

Section ParseInputStages.
Context `{ShellConfig}.

Lemma parse_input_unfold sh w h :
  head_cmd sh = Some h →
  parse_input sh w =
  match match_command (S (size (cmds w))) (cmds w) (Some h)
          (arg_ptr (input_buffer (tokenized sh))
                   (mjoin (args (current_command (tokenized sh)) !! 0)))
          (SHELL_CMD_BUFFER_SIZE - 1) with
  | Walk_diverges => Diverges
  | Walk_fault f => Stuck f (tokenized sh) w
  | Walk_end head =>
      if has_name (cmds w) head
      then Done (set_current_command (tokenized sh)
                   (CurrentCommand head (args (current_command (tokenized sh)))
                      (nargs (current_command (tokenized sh)) - 1)),
                 write w [W_SHELL_NEWLINE])
      else Done (tokenized sh, w)
  end.
Proof.
  intros Hh. unfold parse_input. cbn [head_cmd set_current_command]. rewrite Hh. cbv zeta.
  cbn [head_cmd set_input_buffer set_current_command].
  rewrite !history_save_head_cmd. cbn [head_cmd set_input_buffer set_current_command].
  rewrite Hh. reflexivity.
Qed.

Lemma tokenized_input_buffer sh :
  input_buffer (tokenized sh) = tk_buf (tokenize (parsed_buffer sh)).
Proof. unfold tokenized. cbn. by rewrite history_save_input_buffer. Qed.

Lemma tokenized_args sh :
  args (current_command (tokenized sh)) = tk_args (tokenize (parsed_buffer sh)).
Proof. unfold tokenized. cbn. by rewrite history_save_input_buffer. Qed.

Lemma tokenized_nargs sh :
  nargs (current_command (tokenized sh)) = tk_nargs (tokenize (parsed_buffer sh)).
Proof. unfold tokenized. cbn. by rewrite history_save_input_buffer. Qed.

Lemma parsed_buffer_closed sh :
  length (input_buffer sh) = SHELL_CMD_BUFFER_SIZE →
  get (parsed_buffer sh) (length (parsed_buffer sh) - 1) = 0.
Proof.
  intros Hl. unfold parsed_buffer. rewrite length_insert, Hl.
  destruct (decide (SHELL_CMD_BUFFER_SIZE = 0)).
  - apply get_ge. rewrite length_insert. lia.
  - apply get_insert_eq. lia.
Qed.

End ParseInputStages.

Section ParseInputResults.
Context `{ShellConfig} `{ShellEnv}.

(** [parse_input] touches the buffer, the history and [current_command],
    and nothing else of the session. *)
Lemma tokenized_fields sh :
  writef (tokenized sh) = writef sh ∧ readf (tokenized sh) = readf sh ∧
  readfs (tokenized sh) = readfs sh ∧ savereadf (tokenized sh) = savereadf sh ∧
  sstat (tokenized sh) = sstat sh ∧ head_cmd (tokenized sh) = head_cmd sh ∧
  exitflag (tokenized sh) = exitflag sh ∧ cursor_index (tokenized sh) = cursor_index sh ∧
  input_index (tokenized sh) = input_index sh ∧ history_index (tokenized sh) = history_index sh.
Proof.
  unfold tokenized, history_save. cbn.
  by destruct (get (parsed_buffer _) 0 =? 0).
Qed.

(** When the walk finds the descriptor [c], [parse_input] returns it with
    the count reduced by one, and writes SHELL_NEWLINE. *)
Lemma parse_input_match sh w l p c :
  registry (cmds w) (head_cmd sh) l →
  args (current_command (tokenized sh)) !! 0 = Some (Some p) →
  find_command l (drop p (input_buffer (tokenized sh))) (SHELL_CMD_BUFFER_SIZE - 1) = Some c →
  parse_input sh w = Done (matched sh c, write w [W_SHELL_NEWLINE]).
Proof.
  intros Hr Hp Hf.
  destruct (head_cmd sh) as [h|] eqn:Hh; [|by inversion Hr; simplify_eq].
  rewrite (parse_input_unfold sh w h Hh), Hp.
  cbn [mjoin option_join arg_ptr fmap option_fmap option_map].
  destruct (match_command_registry (cmds w) (Some h) l
              (drop p (input_buffer (tokenized sh))) (SHELL_CMD_BUFFER_SIZE - 1) Hr
              (S (size (cmds w)))) as (hd & -> & Hhd).
  { pose proof (registry_length _ _ _ Hr). lia. }
  rewrite Hf in Hhd. destruct (has_name (cmds w) hd); [|done]. by subst hd.
Qed.

Lemma parse_input_head_cmd sh w sh' w' :
  parse_input sh w = Done (sh', w') → head_cmd sh' = head_cmd sh.
Proof.
  destruct (head_cmd sh) as [h|] eqn:Hh.
  - rewrite (parse_input_unfold sh w h Hh).
    destruct (tokenized_fields sh) as (_ & _ & _ & _ & _ & Hhd & _).
    destruct (match_command _ _ _ _ _); [|done..].
    destruct (has_name _ _); intros [= <- <-]; by rewrite <- Hh, <- Hhd.
  - unfold parse_input. cbn [head_cmd set_current_command]. rewrite Hh.
    intros [= <- <-]. done.
Qed.

(** What the branch of the newline does once [parse_input] has returned the
    command [c]: it runs the handler of [c]. *)
Lemma newline_key_exec sh w c dc fc :
  parse_input (finalized sh) w = Done (matched (finalized sh) c, write w [W_SHELL_NEWLINE]) →
  cmds w !! c = Some dc → cmdfunc dc = Some fc →
  let t := tokenize (parsed_buffer (finalized sh)) in
  let args1 := drop 1 (arg_strings (tk_buf t) (tk_args t)) in
  newline_key sh w =
    (let '(code, w2) := run_cmdfunc fc (writef sh) args1 (tk_nargs t - 1)
                          (write w [W_SHELL_NEWLINE]) in
     '(sh', w') ← shell_builtins (matched (finalized sh) c)
                    (set_calls w2 (calls w ++ [Call fc (writef sh) args1 (tk_nargs t - 1)]))
                    code c;
     Done (set_indices sh' 0 0, put_prompt w' None true)).
Proof.
  intros Hparse Hc Hfc t args1. unfold newline_key. fold (finalized sh). rewrite Hparse.
  cbn [mbind outcome_bind]. cbn [matched current_command set_current_command cmd args nargs].
  unfold shell_cmd_exec. cbn [cmds write]. rewrite Hc, Hfc.
  rewrite tokenized_args, tokenized_nargs.
  change (writef (matched (finalized sh) c)) with (writef (tokenized (finalized sh))).
  change (input_buffer (matched (finalized sh) c))
    with (input_buffer (tokenized (finalized sh))).
  destruct (tokenized_fields (finalized sh)) as (-> & _).
  rewrite tokenized_input_buffer. fold t. fold args1.
  change (writef (finalized sh)) with (writef sh).
  destruct (run_cmdfunc fc (writef sh) args1 (tk_nargs t - 1) _) as [code w2].
  cbn [mbind outcome_bind calls write]. reflexivity.
Qed.


(** On a registry that ends, [parse_input] ends or gets stuck. *)
Lemma parse_input_total sh w l :
  registry (cmds w) (head_cmd sh) l → ∃ sh' w', reached (parse_input sh w) sh' w'.
Proof.
  intros Hr. destruct (head_cmd sh) as [h|] eqn:Hh.
  - rewrite (parse_input_unfold sh w h Hh).
    pose proof (match_command_ends (cmds w) (Some h) l
      (arg_ptr (input_buffer (tokenized sh))
         (mjoin (args (current_command (tokenized sh)) !! 0)))
      (SHELL_CMD_BUFFER_SIZE - 1) Hr (S (size (cmds w)))) as Hends.
    destruct (match_command _ _ _ _ _) as [hd|f|].
    + destruct (has_name _ _); eexists _, _; by left.
    + eexists _, _. right. by eexists.
    + destruct Hends; [|done]. pose proof (registry_length _ _ _ Hr). lia.
  - unfold parse_input. cbn [head_cmd set_current_command]. rewrite Hh.
    eexists _, _. by left.
Qed.

(** With a pointer in slot 0 it ends, and the registry is as before. *)
Lemma parse_input_returns sh w l p :
  registry (cmds w) (head_cmd sh) l →
  args (current_command (tokenized sh)) !! 0 = Some (Some p) →
  ∃ sh' w', parse_input sh w = Done (sh', w') ∧ cmds w' = cmds w.
Proof.
  intros Hr Hp. destruct (head_cmd sh) as [h|] eqn:Hh.
  - rewrite (parse_input_unfold sh w h Hh), Hp.
    cbn [mjoin option_join arg_ptr fmap option_fmap option_map].
    destruct (match_command_registry (cmds w) (Some h) l
                (drop p (input_buffer (tokenized sh))) (SHELL_CMD_BUFFER_SIZE - 1) Hr
                (S (size (cmds w)))) as (hd & -> & _).
    { pose proof (registry_length _ _ _ Hr). lia. }
    destruct (has_name _ _); eexists _, _; done.
  - unfold parse_input. cbn [head_cmd set_current_command]. rewrite Hh.
    eexists _, _. done.
Qed.

End ParseInputResults.

(** ** Tokenizing a finalized line *)

Section Tokenization.
Context `{ShellConfig}.



End Tokenization.


(** A backtick-delimited token keeps a double quote that stands inside it. *)
Example tokenize_backtick :
  let t := @tokenize cfg0 (bytes "cmd " ++ [BACKTICK] ++ bytes "x" ++ [DQUOTE] ++ bytes "y"
                             ++ [BACKTICK; 0; 0]) in
  arg_strings (tk_buf t) (tk_args t) =
    [Some (bytes "cmd"); Some (bytes "x" ++ [DQUOTE] ++ bytes "y"); None; None].
Proof. vm_compute. reflexivity. Qed.

(** C9, at the capacity limit. With room for four arguments, the line
    [a b c d e] gives "d e" as the fourth argument: the token "d" that
    fills the last slot is not ended at its closing delimiter, the space at
    offset 7 is still in the buffer. The three tokens before it are. *)
Theorem tokenize_capacity_unterminated :
  let t := @tokenize cfg0 (bytes "a b c d e" ++ replicate 7 0) in
  tk_nargs t = 4 ∧
  arg_strings (tk_buf t) (tk_args t) =
    [Some (bytes "a"); Some (bytes "b"); Some (bytes "c"); Some (bytes "d e")] ∧
  spec_tokens (bytes "a b c d e") !! 3 = Some (bytes "d") ∧
  get (tk_buf t) 7 = SPACE.
Proof. vm_compute. done. Qed.

(** ** Argument 0 at the name comparison *)

Section ArgumentZero.
Context `{ShellConfig}.

Lemma match_command_arg0 fuel mem : ∀ head s n,
  match_command fuel mem head (Some s) n ≠ Walk_fault NULL_strncmp.
Proof.
  induction fuel as [|fuel IH]; intros head s n; [done|].
  cbn [match_command]. repeat case_match; try done; apply IH.
Qed.

(** A line with a token leaves a pointer into the buffer in slot 0. *)
Lemma tokenize_arg0 buf :
  0 < SHELL_MAX_ARGS → get buf (length buf - 1) = 0 →
  spec_tokens (cstr buf) ≠ [] →
  ∃ p, tk_args (tokenize buf) !! 0 = Some (Some p) ∧ p < length buf.
Proof.
  intros Hmax Hlast Htoks. unfold tokenize.
  destruct (decide (get buf 0 = 0)) as [H0|H0].
  { destruct Htoks. unfold spec_tokens. rewrite <- (drop_0 buf), (cstr_drop_zero _ _ H0). done. }
  pose proof (get_lt_length _ _ H0) as Hlen.
  destruct (length buf) as [|fuel] eqn:El; [lia|].
  destruct (decide (get buf (skip_spaces buf 0) = 0)) as [H1|H1].
  { destruct Htoks. unfold spec_tokens. destruct (length (cstr buf)); [done|].
    cbn [spec_tokens_from]. rewrite <- skip_spaces_cstr.
    unfold skip_spaces in H1. rewrite Nat.add_0_l, drop_0 in H1.
    by rewrite (cstr_drop_zero _ _ H1). }
  destruct (tokenize_loop_round fuel buf 0 (replicate SHELL_MAX_ARGS None) 0 H0 H1)
    as (p & d & _ & _ & Hp & _ & Hcode).
  exists p. split.
  - rewrite Hcode. cbv zeta.
    assert ((<[0 := Some p]> (replicate SHELL_MAX_ARGS None)) !! 0 = Some (Some p)) as Hslot
      by (apply list_lookup_insert_eq; rewrite length_replicate; lia).
    repeat case_match; cbn [tk_args]; try done;
      match goal with
      | |- context [tokenize_loop fuel ?b ?i ?a ?n] =>
          destruct (tokenize_loop_frame fuel b i a n) as [_ Hfr]; rewrite Hfr by lia; done
      end.
  - pose proof (get_lt_length _ _ H1) as Hs.
    assert (skip_spaces buf 0 ≠ S fuel - 1) by (intros E; apply H1; rewrite E; exact Hlast).
    lia.
Qed.

(** A line without a token leaves every slot NULL. *)
Lemma tokenize_no_token buf :
  0 < SHELL_MAX_ARGS → spec_tokens (cstr buf) = [] →
  tk_args (tokenize buf) = replicate SHELL_MAX_ARGS None.
Proof.
  intros Hmax Htoks. unfold tokenize.
  assert (spec_tokens_from (length buf) (cstr (drop 0 buf)) = []) as Ht.
  { rewrite drop_0, <- Htoks. apply spec_tokens_from_fuel; [apply cstr_length_le | done]. }
  destruct (tokenize_loop_spec (length buf) buf 0 (replicate SHELL_MAX_ARGS None) 0)
    as (_ & _ & _ & ps & Hargs & Hps).
  { rewrite Ht. simpl. lia. }
  { apply length_replicate. }
  rewrite Ht in *. apply Forall2_nil_inv_r in Hps as ->. by rewrite Hargs.
Qed.

End ArgumentZero.

Section ArgumentZeroTheorem.
Context `{ShellConfig}.

(** C10. [parse_input] gives argument 0 to the name comparison without a
    test. On a line with at least one token every state [parse_input] can
    reach has a pointer into the buffer in slot 0, and the run never comes to
    a comparison with a NULL argument 0. On a line without a token (empty,
    or made of spaces only) slot 0 is NULL, and as soon as the head of the
    registry has a name the first comparison is made with that NULL: the run
    is stuck there. *)
Theorem parse_input_argument_0 sh w h :
  head_cmd sh = Some h →
  0 < SHELL_MAX_ARGS →
  length (input_buffer sh) = SHELL_CMD_BUFFER_SIZE →
  (spec_tokens (cstr (parsed_buffer sh)) ≠ [] →
     (∀ sh' w' f, parse_input sh w = Stuck f sh' w' → f ≠ NULL_strncmp) ∧
     (∀ sh' w', reached (parse_input sh w) sh' w' →
        ∃ p, args (current_command sh') !! 0 = Some (Some p) ∧ p < SHELL_CMD_BUFFER_SIZE)) ∧
  (spec_tokens (cstr (parsed_buffer sh)) = [] →
     ∀ d nm, cmds w !! h = Some d → name d = Some nm →
       args (current_command (tokenized sh)) !! 0 = Some None ∧
       parse_input sh w = Stuck NULL_strncmp (tokenized sh) w).
Proof.
  intros Hh Hmax Hlen. split.
  - intros Htoks.
    destruct (tokenize_arg0 (parsed_buffer sh) Hmax (parsed_buffer_closed sh Hlen) Htoks)
      as (p & Hp & Hlt).
    assert (length (parsed_buffer sh) = SHELL_CMD_BUFFER_SIZE) as Hpl
      by (unfold parsed_buffer; by rewrite length_insert).
    split.
    + intros sh' w' f Hs ->. rewrite (parse_input_unfold sh w h Hh) in Hs.
      rewrite tokenized_args, Hp in Hs. cbn [mjoin option_join arg_ptr fmap option_fmap option_map] in Hs.
      pose proof (match_command_arg0 (S (size (cmds w))) (cmds w) (Some h)
        (drop p (input_buffer (tokenized sh))) (SHELL_CMD_BUFFER_SIZE - 1)) as Hm.
      destruct (match_command _ _ _ _ _) as [hd|f|]; [by destruct (has_name _ _)| |done].
      by simplify_eq.
    + intros sh' w' Hr.
      destruct (parse_input_reached sh w sh' w') as (_ & -> & _); [by eexists|done|].
      exists p. split; [done|lia].
  - intros Htoks d nm Hd Hn.
    pose proof (tokenize_no_token (parsed_buffer sh) Hmax Htoks) as Hargs.
    assert (args (current_command (tokenized sh)) !! 0 = Some None) as H0.
    { rewrite tokenized_args, Hargs. apply lookup_replicate_2. lia. }
    split; [done|].
    rewrite (parse_input_unfold sh w h Hh), H0.
    cbn [match_command mjoin option_join arg_ptr fmap option_fmap option_map].
    by rewrite Hd, Hn.
Qed.

End ArgumentZeroTheorem.

(** A line of two spaces, with the command "ls" registered: the comparison is
    made with a NULL argument 0. *)
Lemma parse_input_argument_0_witness :
  @parse_input cfg0 (session0 (bytes "  ")) (world0 []) =
    Stuck NULL_strncmp (@tokenized cfg0 (session0 (bytes "  "))) (world0 []).
Proof.
  refine (proj2 (proj2 (@parse_input_argument_0 cfg0 (session0 (bytes "  ")) (world0 []) 1
                   _ _ _) _ ls_cmd (bytes "ls") _ _)).
  - reflexivity.
  - vm_compute. lia.
  - reflexivity.
  - reflexivity.
  - reflexivity.
  - reflexivity.
Defined.

(** ** Dispatch *)

Section Dispatch.
Context `{ShellConfig} `{ShellEnv}.

Lemma find_command_is_Some l s n a d nm :
  Forall (λ ad, is_Some (name ad.2)) l →
  (a, d) ∈ l → name d = Some nm → strncmp s nm n = 0%Z →
  is_Some (find_command l s n).
Proof.
  induction l as [|[a' d'] l IH]; intros Hall Hin Hn Hs; [by apply elem_of_nil in Hin|].
  apply Forall_cons in Hall as [[nm' Hn'] Hall]. simpl in Hn'.
  cbn [find_command]. rewrite Hn'.
  destruct (strncmp s nm' n =? 0)%Z eqn:E; [by eexists|].
  apply elem_of_cons in Hin as [[= -> ->]|Hin]; [|by apply IH].
  rewrite Hn in Hn'. simplify_eq. rewrite Hs in E. done.
Qed.

Lemma find_command_elem l s n c :
  find_command l s n = Some c →
  ∃ d nm, (c, d) ∈ l ∧ name d = Some nm ∧ strncmp s nm n = 0%Z.
Proof.
  induction l as [|[a' d'] l IH]; [done|]. cbn [find_command].
  destruct (name d') as [nm'|] eqn:Hn; [|done].
  destruct (strncmp s nm' n =? 0)%Z eqn:E.
  - intros [= ->]. exists d', nm'. split_and!; [apply elem_of_cons; by left|done|lia].
  - intros Hf. destruct (IH Hf) as (d & nm & Hin & ? & ?). exists d, nm.
    split_and!; [apply elem_of_cons; by right|done|done].
Qed.

(** C2. On a finalized line whose first token is the name of a registered
    command, the walk through the registry finds a command [c] of that name,
    and the branch of the newline calls the handler of [c] with the sink
    [writef], with the argument vector one slot further ([args + 1]) and with
    the count of the tokenizer less one; the call is followed by
    [shell_builtins] and the next prompt. The registry is a list that ends,
    of descriptors with a name and a handler. *)
Theorem newline_dispatch sh w l p a d nm :
  let t := tokenize (parsed_buffer (finalized sh)) in
  let n := SHELL_CMD_BUFFER_SIZE - 1 in
  let args1 := drop 1 (arg_strings (tk_buf t) (tk_args t)) in
  registry (cmds w) (head_cmd sh) l →
  Forall (λ ad, is_Some (name ad.2)) l →
  tk_args t !! 0 = Some (Some p) →
  (a, d) ∈ l → name d = Some nm → cstr nm = cstr_at (tk_buf t) p →
  is_Some (find_command l (drop p (tk_buf t)) n) ∧
  S (tk_nargs t - 1) = tk_nargs t ∧
  ∀ c dc fc,
    find_command l (drop p (tk_buf t)) n = Some c →
    cmds w !! c = Some dc → cmdfunc dc = Some fc →
    newline_key sh w =
      (let '(code, w2) := run_cmdfunc fc (writef sh) args1 (tk_nargs t - 1)
                            (write w [W_SHELL_NEWLINE]) in
       '(sh', w') ← shell_builtins (matched (finalized sh) c)
                      (set_calls w2 (calls w ++ [Call fc (writef sh) args1 (tk_nargs t - 1)]))
                      code c;
       Done (set_indices sh' 0 0, put_prompt w' None true)).
Proof.
  intros t n args1 Hr Hall Hp Hin Hn Hnm. split_and!.
  - eapply find_command_is_Some; [done..|]. apply strncmp_same. by rewrite Hnm.
  - destruct (tokenize_loop_frame (length (parsed_buffer (finalized sh)))
                (parsed_buffer (finalized sh)) 0 (replicate SHELL_MAX_ARGS None) 0) as [_ Hfr].
    fold (tokenize (parsed_buffer (finalized sh))) in Hfr. fold t in Hfr.
    destruct (decide (tk_nargs t = 0)) as [E|]; [|lia].
    rewrite (Hfr 0) in Hp by lia. apply lookup_replicate in Hp as [? _]. done.
  - intros c dc fc Hf Hc Hfc. apply (newline_key_exec sh w c dc fc); [|done..].
    apply (parse_input_match (finalized sh) w l p c); [done|..].
    + by rewrite tokenized_args.
    + by rewrite tokenized_input_buffer.
Qed.

End Dispatch.

(** The line [ls -l], with "ls" registered: the handler of "ls" is called
    with the arguments ["-l"] and the count 1. *)
Lemma newline_dispatch_witness :
  ∃ sh' w',
    @newline_key cfg0 env0 (typed0 (bytes "ls -l")) (world0 []) = Done (sh', w') ∧
    calls w' = [Call 7 0 [Some (bytes "-l"); None; None] 1].
Proof.
  destruct (@newline_dispatch cfg0 env0 (typed0 (bytes "ls -l")) (world0 [])
              [(1, ls_cmd)] 0 1 ls_cmd (bytes "ls")) as (_ & _ & Hcall).
  - apply registry_cons; [reflexivity | apply registry_nil].
  - repeat constructor. by eexists.
  - vm_compute. reflexivity.
  - apply elem_of_cons. by left.
  - reflexivity.
  - vm_compute. reflexivity.
  - rewrite (Hcall 1 ls_cmd 7); [|vm_compute; reflexivity|reflexivity|reflexivity].
    eexists _, _. split; vm_compute; reflexivity.
Defined.

(** The same through the loop: the bytes [ls -l] and a newline arrive on
    the connection. *)
Example prompt_ls_l :
  ∃ sh' w' inject,
    @prompt cfg0 env0 6 (@new_instance cfg0 (ShellServer (Some 1)) 0)
      (world0 (bytes "ls -l" ++ [NEWLINE])) = Done (sh', w', inject) ∧
    calls w' = [Call 7 0 [Some (bytes "-l"); None; None] 1].
Proof. eexists _, _, _. split; vm_compute; reflexivity. Qed.

(** ** Registration and shadowing *)

Section Shadowing.
Context `{ShellConfig} `{ShellEnv}.


End Shadowing.


(** ** The history ring *)

Lemma cstr_nonzero l : Forall (λ c, c ≠ 0) (cstr l).
Proof.
  induction l as [|c l IH]; [constructor|]. rewrite cstr_cons.
  destruct (c =? 0) eqn:E; [constructor|]. constructor; [by apply Nat.eqb_neq|done].
Qed.

Lemma cstr_app l k : Forall (λ c, c ≠ 0) l → cstr (l ++ k) = l ++ cstr k.
Proof.
  induction 1 as [|c l Hc _ IH]; [done|]. cbn [app]. rewrite cstr_cons, IH.
  by apply Nat.eqb_neq in Hc as ->.
Qed.

Lemma cstr_zeros n l : 0 < n → cstr (replicate n 0 ++ l) = [].
Proof. destruct n; [lia|]. done. Qed.

Lemma strncpy_length dst src n : n ≤ length dst → length (strncpy dst src n) = length dst.
Proof.
  intros Hn. unfold strncpy.
  rewrite length_app, length_take, length_app, length_replicate, length_drop. lia.
Qed.

(** The copy holds the string of the source, when that fits into [n] bytes
    and the byte behind them is NUL. *)
Lemma strncpy_cstr dst src n :
  length (cstr src) ≤ n → get dst n = 0 → cstr (strncpy dst src n) = cstr src.
Proof.
  intros Hlen Hz. unfold strncpy.
  rewrite take_app_ge by done. rewrite <- app_assoc, cstr_app by apply cstr_nonzero.
  rewrite take_replicate.
  destruct (decide (n - length (cstr src) = 0)) as [->|Hne].
  - cbn [Nat.min replicate app]. rewrite (cstr_drop_zero _ _ Hz). apply app_nil_r.
  - rewrite cstr_zeros by lia. apply app_nil_r.
Qed.

Lemma strncpy_last dst src n : get (strncpy dst src n) n = get dst n.
Proof.
  unfold strncpy.
  assert (length (take n (cstr src ++ replicate n 0)) = n) as Hl
    by (rewrite length_take, length_app, length_replicate; lia).
  unfold get. rewrite lookup_app_r by lia. rewrite Hl, Nat.sub_diag, lookup_drop.
  by rewrite Nat.add_0_r.
Qed.

Section HistoryRing.
Context `{ShellConfig}.

Lemma cstr_nil_iff buf : cstr buf = [] ↔ get buf 0 = 0.
Proof.
  rewrite (cstr_head buf). destruct (get buf 0 =? 0) eqn:E.
  - by apply Nat.eqb_eq in E.
  - apply Nat.eqb_neq in E. done.
Qed.

Lemma cstr_closed_length buf n : get buf n = 0 → length (cstr buf) ≤ n.
Proof.
  revert n. induction buf as [|c buf IH]; intros n Hz; [simpl; lia|].
  rewrite cstr_cons. destruct (c =? 0) eqn:E; [simpl; lia|].
  destruct n as [|n]; [apply Nat.eqb_neq in E; done|].
  rewrite get_cons_S in Hz. specialize (IH n Hz). simpl. lia.
Qed.

(** The write cursor moves one slot on and wraps at the size of the ring. *)
Lemma save_index_wraps k :
  0 < SHELL_HISTORY_LENGTH ≤ 256 → k < SHELL_HISTORY_LENGTH →
  (if SHELL_HISTORY_LENGTH <=? (k + 1) mod 256 then 0 else (k + 1) mod 256)
  = (k + 1) mod SHELL_HISTORY_LENGTH.
Proof.
  intros Hn Hk. destruct (decide (k + 1 = 256)) as [E|Hne].
  - rewrite E. replace SHELL_HISTORY_LENGTH with 256 by lia. done.
  - rewrite (Nat.mod_small (k + 1) 256) by lia.
    destruct (SHELL_HISTORY_LENGTH <=? k + 1) eqn:E.
    + apply Nat.leb_le in E. replace (k + 1) with SHELL_HISTORY_LENGTH by lia.
      by rewrite Nat.Div0.mod_same.
    + apply Nat.leb_gt in E. by rewrite Nat.mod_small.
Qed.

(** One line saved: a line that is not empty goes into the slot at the write
    cursor, which moves on; an empty line changes nothing. *)
Lemma history_save_spec sh :
  0 < SHELL_HISTORY_LENGTH ≤ 256 → history_wf sh →
  get (input_buffer sh) (SHELL_CMD_BUFFER_SIZE - 1) = 0 →
  history_wf (history_save sh) ∧
  (cstr (input_buffer sh) ≠ [] →
     cstr <$> history (history_save sh) =
       <[history_save_index sh := cstr (input_buffer sh)]> (cstr <$> history sh) ∧
     history_save_index (history_save sh) =
       (history_save_index sh + 1) mod SHELL_HISTORY_LENGTH) ∧
  (cstr (input_buffer sh) = [] → history_save sh = sh).
Proof.
  intros Hn (Hlen & Hslots & Hk) Hz. unfold history_save.
  destruct (get (input_buffer sh) 0 =? 0) eqn:E.
  { apply Nat.eqb_eq, cstr_nil_iff in E. split_and!; done. }
  apply Nat.eqb_neq in E.
  destruct (lookup_lt_is_Some_2 (history sh) (history_save_index sh)) as [slot Hslot]; [lia|].
  rewrite Hslot. cbn [from_option id].
  pose proof (Forall_lookup_1 _ _ _ _ Hslots Hslot) as [Hsl Hsz].
  split_and!.
  - unfold history_wf. cbn [history history_save_index set_history].
    rewrite length_insert, save_index_wraps by done. split_and!; [done| |].
    + apply Forall_insert; [done|]. split.
      * rewrite strncpy_length; [done|lia].
      * by rewrite strncpy_last.
    + apply Nat.mod_upper_bound. lia.
  - intros _. cbn [history history_save_index set_history].
    rewrite list_fmap_insert, strncpy_cstr, save_index_wraps; [done|done|done| |done].
    by apply cstr_closed_length.
  - intros Hnil. by apply cstr_nil_iff in Hnil.
Qed.

End HistoryRing.

Section HistoryTheorem.
Context `{ShellConfig}.

Lemma parse_input_history sh w sh' w' :
  0 < SHELL_HISTORY_LENGTH ≤ 256 →
  is_Some (head_cmd sh) → history_wf sh →
  length (input_buffer sh) = SHELL_CMD_BUFFER_SIZE →
  reached (parse_input sh w) sh' w' →
  history_wf sh' ∧
  (cstr (parsed_buffer sh) ≠ [] →
     cstr <$> history sh' =
       <[history_save_index sh := cstr (parsed_buffer sh)]> (cstr <$> history sh) ∧
     history_save_index sh' = (history_save_index sh + 1) mod SHELL_HISTORY_LENGTH) ∧
  (cstr (parsed_buffer sh) = [] →
     history sh' = history sh ∧ history_save_index sh' = history_save_index sh).
Proof.
  intros Hn Hh Hwf Hlen Hr.
  destruct (parse_input_reached sh w sh' w' Hh Hr) as (_ & _ & Hhist & Hidx).
  destruct (history_save_spec (set_input_buffer sh (parsed_buffer sh)) Hn Hwf)
    as (Hwf' & Hsave & Hskip).
  { cbn [input_buffer set_input_buffer].
    pose proof (parsed_buffer_closed sh Hlen) as Hc.
    unfold parsed_buffer in Hc |- *. by rewrite length_insert, Hlen in Hc. }
  cbn [input_buffer set_input_buffer history history_save_index] in Hsave, Hskip.
  split_and!.
  - unfold history_wf in *. by rewrite Hhist, Hidx.
  - intros Hne. rewrite Hhist, Hidx. by apply Hsave.
  - intros Hnil. rewrite Hhist, Hidx, (Hskip Hnil). done.
Qed.

(** Lines pushed into an empty ring fill it slot by slot. *)
Lemma ring_fill ls :
  0 < SHELL_HISTORY_LENGTH → length ls ≤ SHELL_HISTORY_LENGTH →
  foldl ring_push (replicate SHELL_HISTORY_LENGTH [], 0) ls =
    (ls ++ replicate (SHELL_HISTORY_LENGTH - length ls) [],
     length ls mod SHELL_HISTORY_LENGTH).
Proof.
  intros Hn. induction ls as [|x ls IH] using rev_ind; intros Hlen.
  - cbn [foldl length]. by rewrite Nat.sub_0_r, Nat.Div0.mod_0_l.
  - rewrite length_app in Hlen. cbn [length] in Hlen.
    rewrite foldl_app, IH by lia. cbn [foldl]. unfold ring_push. cbn [fst snd].
    rewrite (Nat.mod_small (length ls)) by lia. rewrite length_app. cbn [length].
    f_equal. rewrite insert_app_r_alt, Nat.sub_diag by lia.
    replace (SHELL_HISTORY_LENGTH - length ls)
      with (S (SHELL_HISTORY_LENGTH - (length ls + 1))) by lia.
    cbn [replicate]. by rewrite <- app_assoc.
Qed.

(** The finalized lines go into the ring one after the other. *)
Lemma finalize_lines_history bufs : ∀ sh w sh' w',
  0 < SHELL_HISTORY_LENGTH ≤ 256 →
  is_Some (head_cmd sh) → history_wf sh →
  Forall (λ b, length b = SHELL_CMD_BUFFER_SIZE ∧ line_of b ≠ []) bufs →
  finalize_lines sh w bufs = Done (sh', w') →
  (cstr <$> history sh', history_save_index sh') =
    foldl ring_push (cstr <$> history sh, history_save_index sh) (line_of <$> bufs).
Proof.
  induction bufs as [|b bufs IH]; intros sh w sh' w' Hn Hh Hwf Hall Hrun.
  - cbn in Hrun. by simplify_eq.
  - apply Forall_cons in Hall as [[Hlen Hline] Hall]. cbn [finalize_lines] in Hrun.
    destruct (parse_input (set_input_buffer sh b) w) as [[sh1 w1]| |] eqn:Hp; [|done..].
    cbn [mbind outcome_bind] in Hrun.
    destruct (parse_input_history (set_input_buffer sh b) w sh1 w1 Hn Hh Hwf Hlen)
      as (Hwf1 & Hsave & _); [by left|].
    destruct (Hsave Hline) as [Hs1 Hs2].
    cbn [history history_save_index set_input_buffer] in Hs1, Hs2.
    rewrite (IH sh1 w1 sh' w' Hn); [|by rewrite (parse_input_head_cmd _ _ _ _ Hp)|done..].
    rewrite fmap_cons. cbn [foldl]. unfold ring_push at 2. cbn [fst snd].
    by rewrite Hs1, Hs2.
Qed.

Lemma spec_tokens_line line : spec_tokens line ≠ [] → line ≠ [].
Proof. by intros Ht ->. Qed.

(** On a registry that ends, lines that have a token are all dealt with. *)
Lemma finalize_lines_returns l bufs : ∀ sh w,
  0 < SHELL_MAX_ARGS →
  registry (cmds w) (head_cmd sh) l →
  Forall (λ b, length b = SHELL_CMD_BUFFER_SIZE ∧ spec_tokens (line_of b) ≠ []) bufs →
  ∃ sh' w', finalize_lines sh w bufs = Done (sh', w').
Proof.
  induction bufs as [|b bufs IH]; intros sh w Hmax Hreg Hall; [by eexists _, _|].
  apply Forall_cons in Hall as [[Hlen Htok] Hall]. cbn [finalize_lines].
  destruct (tokenize_arg0 (parsed_buffer (set_input_buffer sh b)) Hmax) as (p & Hp & _).
  { by apply parsed_buffer_closed. }
  { exact Htok. }
  destruct (parse_input_returns (set_input_buffer sh b) w l p Hreg) as (sh1 & w1 & Hrun & Hc).
  { by rewrite tokenized_args. }
  rewrite Hrun. cbn [mbind outcome_bind]. apply IH; [done| |done].
  by rewrite Hc, (parse_input_head_cmd _ _ _ _ Hrun).
Qed.

(** C4. With a registry, [parse_input] copies a finalized line that is not
    empty into the history slot at the write cursor, as the line stood
    before it is cut into arguments, and moves the write cursor one slot on,
    back to 0 at the end of the ring; an empty line leaves the history and
    the write cursor as they are, so no empty line is ever stored. After
    N + 1 lines in a fresh session with a ring of N slots, the slot of the
    first line holds the last one and the other slots hold the lines between
    them. *)
Theorem history_ring :
  0 < SHELL_HISTORY_LENGTH ≤ 256 →
  (∀ sh w l,
     is_Some (head_cmd sh) → registry (cmds w) (head_cmd sh) l →
     history_wf sh → length (input_buffer sh) = SHELL_CMD_BUFFER_SIZE →
     ∃ sh' w',
       reached (parse_input sh w) sh' w' ∧
       (cstr (parsed_buffer sh) ≠ [] →
          cstr <$> history sh' =
            <[history_save_index sh := cstr (parsed_buffer sh)]> (cstr <$> history sh) ∧
          history_save_index sh' = (history_save_index sh + 1) mod SHELL_HISTORY_LENGTH) ∧
       (cstr (parsed_buffer sh) = [] →
          history sh' = history sh ∧ history_save_index sh' = history_save_index sh)) ∧
  (∀ shellserver connfd w l b0 rest bN,
     is_Some (server_head_cmd shellserver) →
     registry (cmds w) (server_head_cmd shellserver) l →
     0 < SHELL_MAX_ARGS →
     S (length rest) = SHELL_HISTORY_LENGTH →
     Forall (λ b, length b = SHELL_CMD_BUFFER_SIZE ∧ spec_tokens (line_of b) ≠ [])
       (b0 :: rest ++ [bN]) →
     ∃ sh' w',
       finalize_lines (new_instance shellserver connfd) w (b0 :: rest ++ [bN])
         = Done (sh', w') ∧
       cstr <$> history sh' = line_of bN :: (line_of <$> rest)).
Proof.
  intros Hn. split.
  - intros sh w l Hh Hreg Hwf Hlen.
    destruct (parse_input_total sh w l Hreg) as (sh' & w' & Hr). exists sh', w'.
    by destruct (parse_input_history sh w sh' w' Hn Hh Hwf Hlen Hr) as (_ & ? & ?).
  - intros srv fd w l b0 rest bN Hh Hreg Hmax Hlen Hall.
    destruct (finalize_lines_returns l (b0 :: rest ++ [bN]) (new_instance srv fd) w
                Hmax Hreg Hall) as (sh' & w' & Hrun).
    exists sh', w'. split; [done|].
    assert (Forall (λ b, length b = SHELL_CMD_BUFFER_SIZE ∧ line_of b ≠ [])
              (b0 :: rest ++ [bN])) as Hall'.
    { eapply Forall_impl; [exact Hall|]. intros b [? ?]. split; [done|].
      by apply spec_tokens_line. }
    assert (history_wf (new_instance srv fd)) as Hwf.
    { unfold history_wf. cbn [history history_save_index new_instance].
      rewrite length_replicate. split_and!; [done| |lia].
      apply Forall_replicate. rewrite length_replicate. split; [done|].
      unfold get. destruct (replicate _ _ !! _) eqn:E; [|done].
      by apply lookup_replicate in E as [-> _]. }
    pose proof (finalize_lines_history _ (new_instance srv fd) w sh' w' Hn Hh Hwf Hall' Hrun)
      as Hfold.
    cbn [history history_save_index new_instance] in Hfold.
    assert (cstr <$> replicate SHELL_HISTORY_LENGTH (replicate SHELL_CMD_BUFFER_SIZE 0)
            = replicate SHELL_HISTORY_LENGTH []) as Hfresh.
    { rewrite fmap_replicate. f_equal. by destruct SHELL_CMD_BUFFER_SIZE. }
    rewrite Hfresh in Hfold.
    change (b0 :: rest ++ [bN]) with ((b0 :: rest) ++ [bN]) in Hfold.
    rewrite fmap_app, foldl_app, ring_fill in Hfold; [|lia|].
    2:{ rewrite length_fmap. cbn [length]. lia. }
    rewrite length_fmap in Hfold. cbn [length] in Hfold. rewrite Hlen in Hfold.
    rewrite Nat.sub_diag, Nat.Div0.mod_same in Hfold.
    cbn [fmap list_fmap foldl ring_push fst snd replicate] in Hfold.
    rewrite app_nil_r in Hfold. by injection Hfold as -> _.
Qed.

End HistoryTheorem.

(** A ring of two slots and the lines [a], [b], [c]: the ring holds [c] in
    the slot of [a], and [b]. *)
Lemma history_ring_witness :
  ∃ sh' w',
    @finalize_lines cfg0 (@new_instance cfg0 (ShellServer (Some 1)) 0) (world0 [])
      [buffer0 (bytes "a"); buffer0 (bytes "b"); buffer0 (bytes "c")] = Done (sh', w') ∧
    cstr <$> history sh' = [bytes "c"; bytes "b"].
Proof.
  destruct (proj2 (@history_ring cfg0 ltac:(vm_compute; lia)) (ShellServer (Some 1)) 0%Z
              (world0 []) [(1, ls_cmd)] (buffer0 (bytes "a")) [buffer0 (bytes "b")]
              (buffer0 (bytes "c"))) as (sh' & w' & Hrun & Hhist).
  - by eexists.
  - apply registry_cons; [reflexivity | apply registry_nil].
  - vm_compute. lia.
  - reflexivity.
  - repeat constructor; by vm_compute.
  - exists sh', w'. split; [exact Hrun|]. rewrite Hhist. vm_compute. reflexivity.
Defined.

(** ** The bounds of the cursor and of the end of the input *)










(** Reads the fields of a session through the setters. *)
Ltac fields :=
  cbn [input_buffer history cursor_index input_index history_index history_save_index
       head_cmd exitflag readfs readf savereadf writef sstat current_command
       set_input_buffer set_history set_indices set_history_index set_exitflag
       set_redirect set_current_command fst snd] in *.

Section EditorBounds.
Context `{ShellConfig} `{ShellEnv}.
Hypothesis buffer_size : 2 ≤ SHELL_CMD_BUFFER_SIZE.








End EditorBounds.

Section SessionBounds.
Context `{ShellConfig} `{ShellEnv}.
Hypothesis buffer_size : 2 ≤ SHELL_CMD_BUFFER_SIZE.










End SessionBounds.



(** ** The buffer is full *)

Section Overflow.
Context `{ShellConfig} `{ShellEnv}.

(** C7. A printable byte (at least the space, and not the backspace 0x7F,
    which has its own branch) that arrives when the buffer is full, that is
    when the end-of-input index is no longer below the capacity less one,
    restarts the input: the buffer holds the string of that one byte, put at
    position 0, with the cursor and the end of the input behind it. Nothing
    else of the session changes, the exit flag in particular, and the only
    thing written is the echo of the byte. *)
Theorem insert_overflow sh w data :
  2 ≤ length (input_buffer sh) →
  SHELL_CMD_BUFFER_SIZE - 1 ≤ input_index sh →
  SPACE ≤ data → data ≠ BACKSPACE →
  ∃ sh' w',
    key sh w data = Done (sh', w') ∧
    cstr (input_buffer sh') = [data] ∧ get (input_buffer sh') 0 = data ∧
    input_index sh' = 1 ∧ cursor_index sh' = 1 ∧
    exitflag sh' = exitflag sh ∧ history sh' = history sh ∧
    readf sh' = readf sh ∧ sstat sh' = sstat sh ∧
    out w' = out w ++ [W_bytes [data]] ∧ fds w' = fds w.
Proof.
  intros Hlen Hfull Hprint Hbs. unfold key.
  assert ((data =? ESC) = false) as -> by (apply Nat.eqb_neq; unfold ESC, SPACE in *; lia).
  assert ((data =? NEWLINE) = false) as -> by (apply Nat.eqb_neq; unfold NEWLINE, SPACE in *; lia).
  assert ((data =? BACKSPACE) = false) as -> by (by apply Nat.eqb_neq).
  unfold insert_key.
  assert ((SPACE <=? data) = true) as -> by (by apply Nat.leb_le).
  assert ((input_index sh <? SHELL_CMD_BUFFER_SIZE - 1) = false) as -> by (apply Nat.ltb_ge; lia).
  fields. cbn [Nat.eqb Nat.sub replicate].
  assert (cstr (<[1:=0]> (<[0:=data]> (input_buffer sh))) = [data]) as Hstr.
  { destruct (input_buffer sh) as [|c0 [|c1 rest]]; [simpl in Hlen; lia..|].
    cbn [list_insert insert]. change (cstr (data :: 0 :: rest) = [data]).
    rewrite cstr_cons. assert ((data =? 0) = false) as -> by (apply Nat.eqb_neq; unfold SPACE in *; lia).
    done. }
  eexists _, _. split; [reflexivity|]. fields.
  split_and!; try done.
  - rewrite get_insert_ne by lia. apply get_insert_eq. lia.
  - cbn [out write]. unfold cstr_at. rewrite drop_0, Hstr. by rewrite app_nil_r.
Qed.

End Overflow.

(** A buffer of 16 bytes with 15 letters in it, and a 16th letter typed. *)
Lemma insert_overflow_witness :
  ∃ sh' w',
    @key cfg0 env0 (typed0 (replicate 15 97)) (world0 []) 98 = Done (sh', w') ∧
    cstr (input_buffer sh') = [98] ∧ input_index sh' = 1 ∧ cursor_index sh' = 1 ∧
    exitflag sh' = false ∧ out w' = [W_bytes [98]].
Proof.
  destruct (@insert_overflow cfg0 env0 (typed0 (replicate 15 97)) (world0 []) 98)
    as (sh' & w' & Hk & Hs & _ & Hi & Hc & He & _ & _ & _ & Ho & _);
    [vm_compute; lia..|vm_compute; lia|].
  exists sh', w'. split_and!; done.
Defined.

(** ** Input from a file *)

Section Redirection.
Context `{ShellConfig} `{ShellEnv}.

(** The keys of the editor leave the redirection alone. *)
Lemma editor_key_redirect sh w data sh' w' :
  data ≠ NEWLINE → key sh w data = Done (sh', w') →
  readfs sh' = readfs sh ∧ readf sh' = readf sh ∧ savereadf sh' = savereadf sh ∧
  sstat sh' = sstat sh.
Proof.
  intros Hnl. unfold key.
  assert ((data =? NEWLINE) = false) as -> by (by apply Nat.eqb_neq).
  unfold escape_key, backspace_key, insert_key, delete_key, historic_prompt,
    clear_prompt, wipe_character.
  repeat case_match; intros [= <- <-]; simplify_eq; by fields.
Qed.

(** The end of the input file, on a byte the loop reads itself. Input
    comes from a file ([st_size] is not 0, [readfs] is the stream) and the
    byte the loop has just read puts the read position of the file at its
    recorded size. Then, in this round, the file is closed, [readf] goes back
    to the saved descriptor and the recorded size and mode are zeroed before
    the byte is handled; the round ends with a newline to inject exactly when
    the byte is not a newline. The round that starts with a newline to inject
    reads nothing, handles that newline as a finalized line and leaves
    nothing to inject. *)
Theorem end_of_file_splice sh w data w1 f :
  st_size (sstat sh) ≠ 0 → readfs sh = Some f →
  read (readf sh) w = Some (data, w1) →
  ftell f w1 = Some (st_size (sstat sh)) →
  let sh1 := set_redirect sh None (savereadf sh) (savereadf sh) (Stat 0 0) in
  prompt_step sh w 0 =
    ('(sh2, w2) ← key sh1 (fclose f w1) data;
     Done (sh2, w2, if data =? NEWLINE then 0 else NEWLINE)) ∧
  fds (fclose f w1) !! f = None ∧
  ∀ sh2 w2,
    data ≠ NEWLINE → key sh1 (fclose f w1) data = Done (sh2, w2) →
    readfs sh2 = None ∧ readf sh2 = savereadf sh ∧ sstat sh2 = Stat 0 0 ∧
    prompt_step sh w 0 = Done (sh2, w2, NEWLINE) ∧
    prompt_step sh2 w2 NEWLINE = ('(sh3, w3) ← newline_key sh2 w2; Done (sh3, w3, 0)).
Proof.
  intros Hsize Hfs Hread Htell sh1.
  assert (prompt_step sh w 0 =
          ('(sh2, w2) ← key sh1 (fclose f w1) data;
           Done (sh2, w2, if data =? NEWLINE then 0 else NEWLINE))) as Hstep.
  { unfold prompt_step. cbn [Nat.eqb]. rewrite Hread. unfold end_of_file.
    apply Nat.eqb_neq in Hsize as ->. rewrite Hfs, Htell.
    rewrite bool_decide_eq_true_2 by done. cbn [mbind outcome_bind].
    reflexivity. }
  split_and!; [done| |].
  { unfold fclose. cbn [fds set_fds]. apply lookup_delete_eq. }
  intros sh2 w2 Hnl Hkey.
  destruct (editor_key_redirect _ _ _ _ _ Hnl Hkey) as (Hr1 & Hr2 & Hr3 & Hr4).
  unfold sh1 in Hr1, Hr2, Hr3, Hr4. fields. split_and!; [done..| |].
  - rewrite Hstep, Hkey. cbn [mbind outcome_bind].
    by apply Nat.eqb_neq in Hnl as ->.
  - unfold prompt_step. cbn [Nat.eqb NEWLINE]. unfold end_of_file. rewrite Hr4. cbn [st_size Nat.eqb].
    cbn [mbind outcome_bind]. unfold key. cbn [Nat.eqb ESC NEWLINE].
    destruct (newline_key sh2 w2) as [[sh3 w3]| |]; done.
Qed.

End Redirection.

(** The file "run" holds [ls -l] without a newline. When its last byte is
    read the file is closed and the connection is read again, a newline is
    injected, and the round after runs "ls" with the argument "-l". *)
Lemma end_of_file_splice_witness :
  ∃ sh9 w9 sh10 w10,
    @prompt_step cfg0 env0 script_session script_world 0 = Done (sh9, w9, NEWLINE) ∧
    readfs sh9 = None ∧ readf sh9 = 0%Z ∧ sstat sh9 = Stat 0 0 ∧
    @prompt_step cfg0 env0 sh9 w9 NEWLINE = Done (sh10, w10, 0) ∧
    calls w10 = [Call 7 0 [Some (bytes "-l"); None; None] 1].
Proof.
  destruct (@end_of_file_splice cfg0 env0 script_session script_world 108
              script_world_read 1) as (_ & _ & Hnext);
    [vm_compute; lia|vm_compute; reflexivity..|].
  destruct (@key cfg0 env0 (set_redirect script_session None (savereadf script_session)
              (savereadf script_session) (Stat 0 0)) (fclose 1 script_world_read) 108)
    as [[sh9 w9]| |] eqn:Ek; [|vm_compute in Ek; discriminate..].
  destruct (Hnext sh9 w9) as (Hfs & Hf & Hst & Hstep & Hinj); [vm_compute; lia|done|].
  vm_compute in Ek. injection Ek as <- <-.
  eexists _, _, _, _. split_and!; [exact Hstep|exact Hfs|exact Hf|exact Hst| |].
  - rewrite Hinj. vm_compute. reflexivity.
  - vm_compute. reflexivity.
Defined.

(** The whole run: eleven rounds on the connection and the file, and the
    twelfth ends the session because the connection has nothing more. *)
Example prompt_script :
  ∃ sh' w' inject,
    @prompt cfg0 env0 12 (@new_instance cfg0 (ShellServer (Some 1)) 0)
      (world_script (bytes "ls -l")) = Done (sh', w', inject) ∧
    calls w' = [Call 7 0 [Some (bytes "-l"); None; None] 1] ∧
    exitflag sh' = true ∧ readf sh' = 0%Z ∧ fds w' !! 1%Z = None.
Proof. eexists _, _, _. split_and!; vm_compute; reflexivity. Qed.

(** C6, on a file that ends inside an escape sequence. The claim: whenever
    the read position of the input file reaches its recorded size the file is
    closed, the byte source goes back to the connection, and a last line
    without a newline is still run. The reads the escape decoder makes are
    not followed by the test for the end of the file: the file "run" that
    holds [ls] ESC [ D is read to its end by the decoder and is left open,
    the next read of the loop finds nothing and ends the session with the
    byte source still on the file, and "ls" is not run. *)
Example prompt_script_escape :
  ∃ sh' w' inject,
    @prompt cfg0 env0 12 (@new_instance cfg0 (ShellServer (Some 1)) 0)
      (world_script (bytes "ls" ++ [ESC; 0x5B; 0x44])) = Done (sh', w', inject) ∧
    calls w' = [] ∧ exitflag sh' = true ∧ readf sh' = 1%Z ∧ is_Some (fds w' !! 1%Z).
Proof. eexists _, _, _. split_and!; vm_compute; try reflexivity. by eexists. Qed.

(** ** A file that cannot be opened *)

Section OpenFailure.
Context `{ShellConfig} `{ShellEnv}.





End OpenFailure.


